(** * SSTV PD120 beacon: colour transform, frequency mapping, scan-segment
      timer machine, line-pair sequencing and calibration header.

    Shallow embedding of [sstv_pd120.h].

    - C++ [float] and [double] values are modelled by the rational numbers
      they denote; every arithmetic operation is the exact operation followed
      by IEEE 754 round-to-nearest-even into binary32 or binary64 (module
      [IEEE]).  No value of this program leaves the finite range, so
      infinities and NaN do not occur.
    - The volatile globals shared between the main line and the timer
      callback are the fields of [state]; the tone peripheral, the busy-wait
      delays, the timer calls and the canvas reads are recorded in an output
      log of [event]s.
    - A read outside the canvas buffer and a float-to-unsigned conversion
      outside the [uint32_t] range are undefined in C++; they are modelled by
      [None]. *)

From Stdlib Require Import ZArith QArith Qround Qabs Qpower List Bool Lia Lra Lqa.
Import ListNotations.

Local Open Scope Z_scope.

(** ** IEEE 754 rounding on rationals *)

Module IEEE.

Local Open Scope Q_scope.

(** [mag x] is the exponent [e] with [2^(e-1) <= |x| < 2^e] (for [x <> 0]). *)
Definition mag (x : Q) : Z :=
  let e0 := (Z.log2 (Z.abs (Qnum x)) - Z.log2 (Zpos (Qden x)))%Z in
  if Qle_bool (2 ^ e0) (Qabs x) then (e0 + 1)%Z else e0.

(** Exponent of the last place of a number of magnitude [e], in a format of
    precision [p] whose smallest subnormal is [2^emin]. *)
Definition fexp (p emin e : Z) : Z := Z.max (e - p) emin.

(** Nearest integer, ties to even. *)
Definition rne (y : Q) : Z :=
  let f := Qfloor y in
  match Qcompare (y - inject_Z f) (1 # 2) with
  | Lt => f
  | Gt => (f + 1)%Z
  | Eq => if Z.even f then f else (f + 1)%Z
  end.

(** Rounding to a multiple of [2^q]. *)
Definition rnd_at (q : Z) (x : Q) : Q := inject_Z (rne (x / 2 ^ q)) * 2 ^ q.

(** Round to nearest even in the format [(p, emin)]. *)
Definition rnd (p emin : Z) (x : Q) : Q :=
  if Qeq_bool x 0 then 0 else rnd_at (fexp p emin (mag x)) x.

Definition binary32 : Q -> Q := rnd 24 (-149).
Definition binary64 : Q -> Q := rnd 53 (-1074).

End IEEE.

(** ** C++ arithmetic on [float] and [double] *)

(** Integer-to-floating conversions, conversions between the two formats,
    literals and the operators used by the source.  A [double] operation is
    the exact operation rounded by [IEEE.binary64], a [float] operation is
    rounded by [IEEE.binary32] (FLT_EVAL_METHOD 0, no contraction). *)
Definition double_of_int (n : Z) : Q := IEEE.binary64 (inject_Z n).
Definition float_of_int (n : Z) : Q := IEEE.binary32 (inject_Z n).
Definition double_of_float (x : Q) : Q := x.
Definition float_of_double (x : Q) : Q := IEEE.binary32 x.
Definition double_lit (x : Q) : Q := IEEE.binary64 x.

Definition dadd (x y : Q) : Q := IEEE.binary64 (x + y).
Definition dmul (x y : Q) : Q := IEEE.binary64 (x * y).
Definition ddiv (x y : Q) : Q := IEEE.binary64 (x / y).
Definition fadd (x y : Q) : Q := IEEE.binary32 (x + y).
Definition fsub (x y : Q) : Q := IEEE.binary32 (x - y).

(** Truncation toward zero. *)
Definition Qtrunc (x : Q) : Z :=
  if Qle_bool 0 x then Qfloor x else Qceiling x.

(** [(uint32_t) x] for a floating [x]: the fractional part is discarded; the
    conversion is undefined when the truncated value is not a [uint32_t]. *)
Definition uint32_of_double (x : Q) : option Z :=
  let t := Qtrunc x in
  if (0 <=? t) && (t <? 2 ^ 32) then Some t else None.

Definition u32 (z : Z) : Z := z mod 2 ^ 32.
Definition u8 (z : Z) : Z := z mod 2 ^ 8.

(** ** Protocol constants *)

Definition syncPulseDuration : Z := 20000.
Definition porchDuration : Z := 2080.
Definition scanDuration : Z := 121600.
Definition imageWidth : Z := 640.
Definition imageHeight : Z := 496.
Definition pixelDuration : Z := scanDuration / imageWidth.

(** ** Global state and output log *)

Inductive SegmentType : Set := SEG_Y | SEG_RY | SEG_BY.

(** What the program does to its environment, in program order. *)
Inductive event : Set :=
| EvTone (frequency : Z)        (* ledcWriteTone(frequency) *)
| EvDelay (micros : Z)          (* a busy wait of [micros] microseconds *)
| EvRead (x y : Z)              (* canvas->getBuffer()[y * imageWidth + x] *)
| EvTimerStart (period : Z)     (* esp_timer_start_periodic *)
| EvTimerStop                   (* esp_timer_stop *)
| EvLedcStop.                   (* ledc_stop *)

(** The globals of the source; [canvas] is the RGB565 buffer behind the
    global canvas pointer, [timerActive] the state of [pixelTimerHandle],
    [ticks] counts the evaluations of the timer callback and [log] is the
    output log (oldest event first).  The last two are instrumentation. *)
Record state : Type := mkState {
  canvas : Z -> Z;
  pixelCounter : Z;
  rowFinished : bool;
  currentSegment : SegmentType;
  currentRow : Z;
  currentRowOdd : Z;
  currentRowEven : Z;
  timerActive : bool;
  ticks : Z;
  log : list event
}.

Definition set_pixelCounter (v : Z) (s : state) : state :=
  mkState (canvas s) v (rowFinished s) (currentSegment s) (currentRow s)
          (currentRowOdd s) (currentRowEven s) (timerActive s) (ticks s) (log s).
Definition set_rowFinished (v : bool) (s : state) : state :=
  mkState (canvas s) (pixelCounter s) v (currentSegment s) (currentRow s)
          (currentRowOdd s) (currentRowEven s) (timerActive s) (ticks s) (log s).
Definition set_currentSegment (v : SegmentType) (s : state) : state :=
  mkState (canvas s) (pixelCounter s) (rowFinished s) v (currentRow s)
          (currentRowOdd s) (currentRowEven s) (timerActive s) (ticks s) (log s).
Definition set_currentRow (v : Z) (s : state) : state :=
  mkState (canvas s) (pixelCounter s) (rowFinished s) (currentSegment s) v
          (currentRowOdd s) (currentRowEven s) (timerActive s) (ticks s) (log s).
Definition set_currentRowOdd (v : Z) (s : state) : state :=
  mkState (canvas s) (pixelCounter s) (rowFinished s) (currentSegment s)
          (currentRow s) v (currentRowEven s) (timerActive s) (ticks s) (log s).
Definition set_currentRowEven (v : Z) (s : state) : state :=
  mkState (canvas s) (pixelCounter s) (rowFinished s) (currentSegment s)
          (currentRow s) (currentRowOdd s) v (timerActive s) (ticks s) (log s).
Definition set_timerActive (v : bool) (s : state) : state :=
  mkState (canvas s) (pixelCounter s) (rowFinished s) (currentSegment s)
          (currentRow s) (currentRowOdd s) (currentRowEven s) v (ticks s) (log s).
Definition count_tick (s : state) : state :=
  mkState (canvas s) (pixelCounter s) (rowFinished s) (currentSegment s)
          (currentRow s) (currentRowOdd s) (currentRowEven s) (timerActive s)
          (ticks s + 1) (log s).
Definition emit (e : event) (s : state) : state :=
  mkState (canvas s) (pixelCounter s) (rowFinished s) (currentSegment s)
          (currentRow s) (currentRowOdd s) (currentRowEven s) (timerActive s)
          (ticks s) (log s ++ [e]).

(** ** State and error monad *)

Definition M (A : Type) : Type := state -> option (A * state).

Definition ret {A} (a : A) : M A := fun s => Some (a, s).
Definition bind {A B} (c : M A) (k : A -> M B) : M B :=
  fun s => match c s with
           | Some (a, s') => k a s'
           | None => None
           end.
Definition get : M state := fun s => Some (s, s).
Definition modify (f : state -> state) : M unit := fun s => Some (tt, f s).
Definition liftOpt {A} (o : option A) : M A :=
  fun s => match o with Some a => Some (a, s) | None => None end.
Definition fail {A} : M A := fun _ => None.

Notation "x <- c ;; k" := (bind c (fun x => k))
  (at level 61, c at next level, right associativity).
Notation "c ;;; k" := (bind c (fun _ => k))
  (at level 61, right associativity).

(** ** Pixel query and SSTV conversion *)

Definition ledcWriteTone (frequency : Z) : M unit := modify (emit (EvTone frequency)).

(** The buffer holds [imageWidth * imageHeight] cells. *)
Definition getBuffer (idx : Z) : M Z :=
  st <- get ;;
  if (0 <=? idx) && (idx <? imageWidth * imageHeight)
  then ret (canvas st idx) else fail.

Definition getCanvasPixel (x y : Z) : M (Z * Z * Z) :=
  modify (emit (EvRead x y)) ;;;
  pixel <- getBuffer (y * imageWidth + x) ;;
  let r5 := u8 (Z.land (Z.shiftr pixel 11) 0x1F) in
  let g6 := u8 (Z.land (Z.shiftr pixel 5) 0x3F) in
  let b5 := u8 (Z.land pixel 0x1F) in
  ret (u8 ((r5 * 255) / 31), u8 ((g6 * 255) / 63), u8 ((b5 * 255) / 31)).

Definition convertToSSTV (R G B : Z) : Q * Q * Q :=
  let Y := float_of_double
             (dadd (dadd (dmul (double_lit (299 # 1000)) (double_of_int R))
                         (dmul (double_lit (587 # 1000)) (double_of_int G)))
                   (dmul (double_lit (114 # 1000)) (double_of_int B))) in
  let RY := float_of_double
              (dmul (double_lit (713 # 1000))
                    (double_of_float (fsub (float_of_int R) Y))) in
  let BY := float_of_double
              (dmul (double_lit (564 # 1000))
                    (double_of_float (fsub (float_of_int B) Y))) in
  (Y, RY, BY).

Definition mapYToFrequency (Y : Q) : option Z :=
  match uint32_of_double
          (dmul (ddiv (double_of_float Y) (double_lit 255)) (double_of_int 800)) with
  | Some t => Some (u32 (1500 + t))
  | None => None
  end.

Definition mapDiffToFrequency (diff : Q) : option Z :=
  match uint32_of_double
          (dmul (ddiv (dadd (double_of_float diff) (double_lit 128))
                      (double_lit 255))
                (double_of_int 800)) with
  | Some t => Some (u32 (1500 + t))
  | None => None
  end.

(** ** Timer callback *)

Definition esp_timer_stop : M unit :=
  modify (fun s => emit EvTimerStop (set_timerActive false s)).

Definition esp_timer_start_periodic (period : Z) : M unit :=
  modify (fun s => emit (EvTimerStart period) (set_timerActive true s)).

Definition pixelTimerCallback : M unit :=
  modify count_tick ;;;
  st <- get ;;
  freq <-
    match currentSegment st with
    | SEG_Y =>
        rgb <- getCanvasPixel (pixelCounter st) (currentRow st) ;;
        let '(R, G, B) := rgb in
        let '(Y, _, _) := convertToSSTV R G B in
        liftOpt (mapYToFrequency Y)
    | SEG_RY =>
        rgb1 <- getCanvasPixel (pixelCounter st) (currentRowOdd st) ;;
        rgb2 <- getCanvasPixel (pixelCounter st) (currentRowEven st) ;;
        let '(R1, G1, B1) := rgb1 in
        let '(R2, G2, B2) := rgb2 in
        let '(_, RY1, _) := convertToSSTV R1 G1 B1 in
        let '(_, RY2, _) := convertToSSTV R2 G2 B2 in
        let avgRY := float_of_double
                       (ddiv (double_of_float (fadd RY1 RY2)) (double_lit 2)) in
        liftOpt (mapDiffToFrequency avgRY)
    | SEG_BY =>
        rgb1 <- getCanvasPixel (pixelCounter st) (currentRowOdd st) ;;
        rgb2 <- getCanvasPixel (pixelCounter st) (currentRowEven st) ;;
        let '(R1, G1, B1) := rgb1 in
        let '(R2, G2, B2) := rgb2 in
        let '(_, _, BY1) := convertToSSTV R1 G1 B1 in
        let '(_, _, BY2) := convertToSSTV R2 G2 B2 in
        let avgBY := float_of_double
                       (ddiv (double_of_float (fadd BY1 BY2)) (double_lit 2)) in
        liftOpt (mapDiffToFrequency avgBY)
    end ;;
  ledcWriteTone freq ;;;
  modify (fun s => set_pixelCounter (pixelCounter s + 1) s) ;;;
  st' <- get ;;
  if imageWidth <=? pixelCounter st'
  then esp_timer_stop ;;; modify (set_rowFinished true)
  else ret tt.

(** The periodic timer: it evaluates the callback while it is armed and does
    nothing once stopped. *)
Definition timer_fire : M unit :=
  st <- get ;;
  if timerActive st then pixelTimerCallback else fail.

(** [while (!rowFinished) { }]: the main line spins and only the timer makes
    progress.  [fuel] bounds the number of timer periods waited for. *)
Fixpoint waitRowFinished (fuel : nat) : M unit :=
  st <- get ;;
  if rowFinished st then ret tt
  else match fuel with
       | O => fail
       | S fuel' => timer_fire ;;; waitRowFinished fuel'
       end.

(** ** Scan segments *)

Definition transmitLineY_HW (fuel : nat) (row : Z) : M unit :=
  modify (set_currentSegment SEG_Y) ;;;
  modify (set_currentRow row) ;;;
  modify (set_pixelCounter 0) ;;;
  modify (set_rowFinished false) ;;;
  esp_timer_start_periodic pixelDuration ;;;
  waitRowFinished fuel.

Definition transmitLineDiffRY_HW (fuel : nat) (oddRow evenRow : Z) : M unit :=
  modify (set_currentSegment SEG_RY) ;;;
  modify (set_currentRowOdd oddRow) ;;;
  modify (set_currentRowEven evenRow) ;;;
  modify (set_pixelCounter 0) ;;;
  modify (set_rowFinished false) ;;;
  esp_timer_start_periodic pixelDuration ;;;
  waitRowFinished fuel.

Definition transmitLineDiffBY_HW (fuel : nat) (oddRow evenRow : Z) : M unit :=
  modify (set_currentSegment SEG_BY) ;;;
  modify (set_currentRowOdd oddRow) ;;;
  modify (set_currentRowEven evenRow) ;;;
  modify (set_pixelCounter 0) ;;;
  modify (set_rowFinished false) ;;;
  esp_timer_start_periodic pixelDuration ;;;
  waitRowFinished fuel.

(** ** Calibration header *)

Definition delayMicroseconds (us : Z) : M unit := modify (emit (EvDelay us)).

Definition tonePulse (frequency durationMicros : Z) : M unit :=
  ledcWriteTone frequency ;;; delayMicroseconds durationMicros.

Definition transmitCalibrationHeader : M unit :=
  tonePulse 1900 300000 ;;;
  tonePulse 1200 10000 ;;;
  tonePulse 1900 300000 ;;;
  tonePulse 1200 30000 ;;;
  tonePulse 1100 30000 ;;;
  tonePulse 1100 30000 ;;;
  tonePulse 1100 30000 ;;;
  tonePulse 1100 30000 ;;;
  tonePulse 1100 30000 ;;;
  tonePulse 1300 30000 ;;;
  tonePulse 1100 30000 ;;;
  tonePulse 1300 30000 ;;;
  tonePulse 1200 30000.

(** ** PD120 image transmission *)

(** [start = micros(); while ((micros() - start) < d) { }] *)
Definition busyWait (d : Z) : M unit := modify (emit (EvDelay d)).

Definition ledc_stop : M unit := modify (emit EvLedcStop).

Definition linePair (fuel : nat) (pair : Z) : M unit :=
  let oddLine := pair * 2 in
  let evenLine := oddLine + 1 in
  ledcWriteTone 1200 ;;;
  busyWait syncPulseDuration ;;;
  ledcWriteTone 1500 ;;;
  busyWait porchDuration ;;;
  transmitLineY_HW fuel oddLine ;;;
  transmitLineDiffRY_HW fuel oddLine evenLine ;;;
  transmitLineDiffBY_HW fuel oddLine evenLine ;;;
  transmitLineY_HW fuel evenLine.

(** [for (pair = ...; pair < numPairs; pair++)] *)
Fixpoint pairLoop (fuel : nat) (n : nat) (pair numPairs : Z) : M unit :=
  if pair <? numPairs
  then match n with
       | O => fail
       | S n' => linePair fuel pair ;;; pairLoop fuel n' (pair + 1) numPairs
       end
  else ret tt.

Definition transmitPD120Image_HW (fuel : nat) : M unit :=
  let numPairs := imageHeight / 2 in
  pairLoop fuel fuel 0 numPairs ;;;
  ledc_stop.

(** ** Reference definitions for the statements *)

(** The pure part of [getCanvasPixel]: RGB565 to RGB8. *)
Definition unpackRGB565 (pixel : Z) : Z * Z * Z :=
  let r5 := u8 (Z.land (Z.shiftr pixel 11) 0x1F) in
  let g6 := u8 (Z.land (Z.shiftr pixel 5) 0x3F) in
  let b5 := u8 (Z.land pixel 0x1F) in
  (u8 ((r5 * 255) / 31), u8 ((g6 * 255) / 63), u8 ((b5 * 255) / 31)).

Definition sampleRGB8 (cv : Z -> Z) (x y : Z) : Z * Z * Z :=
  unpackRGB565 (cv (y * imageWidth + x)).

Definition luma (R G B : Z) : Q := fst (fst (convertToSSTV R G B)).
Definition redDiff (R G B : Z) : Q := snd (fst (convertToSSTV R G B)).
Definition blueDiff (R G B : Z) : Q := snd (convertToSSTV R G B).

(** [(d1 + d2) / 2.0] stored into a [float]. *)
Definition averageDiff (d1 d2 : Q) : Q :=
  float_of_double (ddiv (double_of_float (fadd d1 d2)) (double_lit 2)).

(** The operands of the two [(uint32_t)] casts. *)
Definition lumaCastArg (Y : Q) : Q :=
  dmul (ddiv (double_of_float Y) (double_lit 255)) (double_of_int 800).
Definition diffCastArg (diff : Q) : Q :=
  dmul (ddiv (dadd (double_of_float diff) (double_lit 128)) (double_lit 255))
       (double_of_int 800).

(** A scan segment and the rows it reads. *)
Inductive segment : Set :=
| Luminance (row : Z)
| RedDifference (oddRow evenRow : Z)
| BlueDifference (oddRow evenRow : Z).

Definition segmentOf (st : state) : segment :=
  match currentSegment st with
  | SEG_Y => Luminance (currentRow st)
  | SEG_RY => RedDifference (currentRowOdd st) (currentRowEven st)
  | SEG_BY => BlueDifference (currentRowOdd st) (currentRowEven st)
  end.

Definition rowsInRange (sg : segment) : Prop :=
  match sg with
  | Luminance row => 0 <= row < imageHeight
  | RedDifference o e | BlueDifference o e =>
      0 <= o < imageHeight /\ 0 <= e < imageHeight
  end.

(** The tone of column [x] of a segment over the surface [cv]. *)
Definition tickTone (cv : Z -> Z) (sg : segment) (x : Z) : option Z :=
  match sg with
  | Luminance row =>
      let '(R, G, B) := sampleRGB8 cv x row in
      mapYToFrequency (luma R G B)
  | RedDifference o e =>
      let '(R1, G1, B1) := sampleRGB8 cv x o in
      let '(R2, G2, B2) := sampleRGB8 cv x e in
      mapDiffToFrequency (averageDiff (redDiff R1 G1 B1) (redDiff R2 G2 B2))
  | BlueDifference o e =>
      let '(R1, G1, B1) := sampleRGB8 cv x o in
      let '(R2, G2, B2) := sampleRGB8 cv x e in
      mapDiffToFrequency (averageDiff (blueDiff R1 G1 B1) (blueDiff R2 G2 B2))
  end.

Definition tickFreq (cv : Z -> Z) (sg : segment) (x : Z) : Z :=
  match tickTone cv sg x with Some f => f | None => 0 end.

Definition tickReads (sg : segment) (x : Z) : list event :=
  match sg with
  | Luminance row => [EvRead x row]
  | RedDifference o e | BlueDifference o e => [EvRead x o; EvRead x e]
  end.

(** Output of one evaluation of the callback at column [x]. *)
Definition tickEvents (cv : Z -> Z) (sg : segment) (x : Z) : list event :=
  tickReads sg x ++ [EvTone (tickFreq cv sg x)].

(** Columns [x, x + n). *)
Fixpoint columns (x : Z) (n : nat) : list Z :=
  match n with
  | O => []
  | S n' => x :: columns (x + 1) n'
  end.

(** Output of a whole scan segment. *)
Definition segmentEvents (cv : Z -> Z) (sg : segment) : list event :=
  EvTimerStart 190
    :: flat_map (tickEvents cv sg) (columns 0 640) ++ [EvTimerStop].

(** Output of line pair [k]. *)
Definition linePairEvents (cv : Z -> Z) (k : Z) : list event :=
  [EvTone 1200; EvDelay 20000; EvTone 1500; EvDelay 2080]
    ++ segmentEvents cv (Luminance (2 * k))
    ++ segmentEvents cv (RedDifference (2 * k) (2 * k + 1))
    ++ segmentEvents cv (BlueDifference (2 * k) (2 * k + 1))
    ++ segmentEvents cv (Luminance (2 * k + 1)).

(** [n] consecutive timer periods. *)
Fixpoint fire_n (n : nat) : M unit :=
  match n with
  | O => ret tt
  | S n' => timer_fire ;;; fire_n n'
  end.

(** The (frequency, duration) pulses of an output log. *)
Fixpoint pulses (l : list event) : list (Z * Z) :=
  match l with
  | EvTone f :: EvDelay d :: l' => (f, d) :: pulses l'
  | _ :: l' => pulses l'
  | [] => []
  end.

(** The tone frequencies of an output log. *)
Fixpoint tones (l : list event) : list Z :=
  match l with
  | EvTone f :: l' => f :: tones l'
  | _ :: l' => tones l'
  | [] => []
  end.

(** The canvas coordinates read in an output log. *)
Fixpoint reads (l : list event) : list (Z * Z) :=
  match l with
  | EvRead x y :: l' => (x, y) :: reads l'
  | _ :: l' => reads l'
  | [] => []
  end.

(** Even parity bit of a list of bits (true = 1). *)
Definition evenParity (bits : list bool) : bool := fold_right xorb false bits.

(** The seven bits of a VIS code, least significant first. *)
Definition visBits (code : Z) : list bool :=
  map (fun i => Z.testbit code (Z.of_nat i)) (seq 0 7).

(** 1100 Hz encodes a one, 1300 Hz a zero. *)
Definition bitTone (b : bool) : Z := if b then 1100 else 1300.

(** Exhaustive check of a predicate on [0, n). *)
Fixpoint forall_below (n : nat) (f : Z -> bool) : bool :=
  match n with
  | O => true
  | S k => f (Z.of_nat k) && forall_below k f
  end.


(** What one evaluation of the callback does to the globals. *)
Definition tickPost (st st' : state) : Prop :=
  canvas st' = canvas st /\
  pixelCounter st' = pixelCounter st + 1 /\
  currentSegment st' = currentSegment st /\
  currentRow st' = currentRow st /\
  currentRowOdd st' = currentRowOdd st /\
  currentRowEven st' = currentRowEven st /\
  ticks st' = ticks st + 1 /\
  if imageWidth <=? pixelCounter st + 1
  then rowFinished st' = true /\ timerActive st' = false /\
       log st' = log st ++ tickEvents (canvas st) (segmentOf st) (pixelCounter st)
                        ++ [EvTimerStop]
  else rowFinished st' = rowFinished st /\ timerActive st' = timerActive st /\
       log st' = log st ++ tickEvents (canvas st) (segmentOf st) (pixelCounter st).

(** The three begin-segment functions, selected by the segment. *)
Definition transmitSegment (fuel : nat) (sg : segment) : M unit :=
  match sg with
  | Luminance row => transmitLineY_HW fuel row
  | RedDifference o e => transmitLineDiffRY_HW fuel o e
  | BlueDifference o e => transmitLineDiffBY_HW fuel o e
  end.

(** The globals when a begin-segment function reaches its wait loop. *)
Definition armSegment (sg : segment) (st : state) : state :=
  let armed s :=
    emit (EvTimerStart pixelDuration)
         (set_timerActive true (set_rowFinished false (set_pixelCounter 0 s))) in
  match sg with
  | Luminance row => armed (set_currentRow row (set_currentSegment SEG_Y st))
  | RedDifference o e =>
      armed (set_currentRowEven e (set_currentRowOdd o (set_currentSegment SEG_RY st)))
  | BlueDifference o e =>
      armed (set_currentRowEven e (set_currentRowOdd o (set_currentSegment SEG_BY st)))
  end.

(** Output of the whole picture: the line pairs in order, then silence. *)
Definition imageEvents (cv : Z -> Z) : list event :=
  flat_map (linePairEvents cv) (columns 0 248) ++ [EvLedcStop].

(** A read that stays inside the 640 x 496 surface and its buffer. *)
Definition readInBounds (xy : Z * Z) : Prop :=
  let '(x, y) := xy in
  0 <= x < 640 /\ 0 <= y < 496 /\ 0 <= y * imageWidth + x < 640 * 496.

(** The calibration header as a list of (frequency, duration) pulses: leader,
    break, leader, start bit, seven VIS bits, even parity, stop bit. *)
Definition headerPulses (code : Z) : list (Z * Z) :=
  [(1900, 300000); (1200, 10000); (1900, 300000); (1200, 30000)]
    ++ map (fun b => (bitTone b, 30000)) (visBits code)
    ++ [(bitTone (evenParity (visBits code)), 30000); (1200, 30000)].

(** The header with the parity pulse of 1300 microseconds. *)
Definition headerPulsesShortParity (code : Z) : list (Z * Z) :=
  [(1900, 300000); (1200, 10000); (1900, 300000); (1200, 30000)]
    ++ map (fun b => (bitTone b, 30000)) (visBits code)
    ++ [(bitTone (evenParity (visBits code)), 1300); (1200, 30000)].

(** A surface filled with the packed value all of whose channel bits are set. *)
Definition whiteSurface (cv : Z -> Z) : Prop := forall i, cv i = 0xFFFF.

(** The globals as the source initialises them, over a given canvas. *)
Definition initialState (cv : Z -> Z) : state :=
  mkState cv 0 false SEG_Y 0 0 0 false 0 [].

(** The output of a list of tone pulses. *)
Definition pulseEvents (l : list (Z * Z)) : list event :=
  flat_map (fun p => [EvTone (fst p); EvDelay (snd p)]) l.

(** ** The camera frame copy and the transmission call sequence *)

Definition u16 (z : Z) : Z := z mod 2 ^ 16.

Definition set_canvas (cv : Z -> Z) (s : state) : state :=
  mkState cv (pixelCounter s) (rowFinished s) (currentSegment s) (currentRow s)
          (currentRowOdd s) (currentRowEven s) (timerActive s) (ticks s) (log s).

(** [targetBuffer[idx] = v], where [targetBuffer] is the canvas buffer; a
    store outside its [imageWidth * imageHeight] cells is undefined. *)
Definition setBuffer (idx v : Z) : M unit :=
  st <- get ;;
  if (0 <=? idx) && (idx <? imageWidth * imageHeight)
  then modify (set_canvas (fun i => if i =? idx then v else canvas st i))
  else fail.

(** [for (int v = 0; v < hi; v++) body] for a body that leaves [v] and [hi]
    alone. *)
Fixpoint forEach (l : list Z) (body : Z -> M unit) : M unit :=
  match l with
  | [] => ret tt
  | v :: l' => body v ;;; forEach l' body
  end.
Definition forRange (hi : Z) (body : Z -> M unit) : M unit :=
  forEach (columns 0 (Z.to_nat hi)) body.

(** The loop nest of [takeAndTransmitImageViaSSTV] that moves the decoded
    camera frame (two bytes per pixel, low byte first) into the canvas. *)
Definition copyFrameToCanvas (rgb565_buffer : Z -> Z)
           (imageWidthCam imageHeightCam : Z) : M unit :=
  let offsetY := 0 in
  forRange imageHeightCam (fun y =>
    forRange imageWidthCam (fun x =>
      let srcIndex := (y * imageWidthCam + x) * 2 in
      let pixel :=
        u16 (Z.lor (Z.shiftl (u16 (u8 (rgb565_buffer (srcIndex + 1)))) 8)
                   (u8 (rgb565_buffer srcIndex))) in
      let destIndex := (y + offsetY) * imageWidth + x in
      setBuffer destIndex pixel)).

(** The body of the inner loop of [copyFrameToCanvas]. *)
Definition copyPixel (rgb565_buffer : Z -> Z) (imageWidthCam y x : Z) : M unit :=
  setBuffer ((y + 0) * imageWidth + x)
    (u16 (Z.lor (Z.shiftl (u16 (u8 (rgb565_buffer ((y * imageWidthCam + x) * 2 + 1)))) 8)
                (u8 (rgb565_buffer ((y * imageWidthCam + x) * 2))))).

(** [transmitCalibrationHeader(); transmitPD120Image_HW();] as called by
    [takeAndTransmitImageViaSSTV]. *)
Definition sendHeaderAndImage (fuel : nat) : M unit :=
  transmitCalibrationHeader ;;;
  transmitPD120Image_HW fuel.

(** The 16-bit word stored low byte first at byte offset [k]. *)
Definition wordAt (src : Z -> Z) (k : Z) : Z := u8 (src k) + 256 * u8 (src (k + 1)).

(** The canvas after a [w] x [h] frame has been copied over [cv]. *)
Definition frameOver (src : Z -> Z) (w h : Z) (cv : Z -> Z) (i : Z) : Z :=
  if (0 <=? i) && (i mod imageWidth <? w) && (i / imageWidth <? h)
  then wordAt src ((i / imageWidth * w + i mod imageWidth) * 2)
  else cv i.

(** The frequencies the transmission may write: a protocol tone or a
    picture tone. *)
Definition allowedTone (f : Z) : Prop :=
  f = 1100 \/ f = 1200 \/ f = 1300 \/ f = 1900 \/ 1500 <= f <= 2301.



(** Conversions between folded and unfolded arithmetic unfold the reference
    definitions before the rounding operators. *)
Strategy 100 [IEEE.rnd IEEE.binary32 IEEE.binary64 float_of_double double_of_float
              double_of_int float_of_int double_lit dadd dmul ddiv fadd fsub].

(** * Properties *)

(** ** Rounding is monotone *)

Section Rounding.

Local Open Scope Q_scope.
Import IEEE.

Lemma pow2_pos (k : Z) : 0 < 2 ^ k.
Proof. apply Qpower_0_lt. reflexivity. Qed.

Lemma pow2_le (a b : Z) : (a <= b)%Z -> 2 ^ a <= 2 ^ b.
Proof. intros H. apply Qpower_le_compat_l; [exact H | discriminate]. Qed.

Lemma pow2_lt_inv (a b : Z) : 2 ^ a < 2 ^ b -> (a < b)%Z.
Proof. intros H. apply (Qpower_lt_compat_l_inv 2); [exact H | reflexivity]. Qed.

Lemma pow2_add (a b : Z) : 2 ^ (a + b) == 2 ^ a * 2 ^ b.
Proof. apply Qpower_plus. discriminate. Qed.

Lemma pow2_inject (k : Z) : (0 <= k)%Z -> 2 ^ k == inject_Z (2 ^ k).
Proof. intros H. symmetry. apply (Zpower_Qpower 2 k H). Qed.

Lemma pow2_div (k q : Z) : 2 ^ k / 2 ^ q == 2 ^ (k - q).
Proof.
  replace k with ((k - q) + q)%Z at 1 by ring.
  rewrite pow2_add. field. apply Qnot_eq_sym, Qlt_not_eq, pow2_pos.
Qed.

Lemma rne_cases (y : Q) : rne y = Qfloor y \/ rne y = (Qfloor y + 1)%Z.
Proof.
  unfold rne. destruct (Qcompare _ _); auto. destruct (Z.even _); auto.
Qed.

Lemma rne_inject (n : Z) : rne (inject_Z n) = n.
Proof.
  unfold rne. rewrite Qfloor_Z.
  destruct (Qcompare_spec (inject_Z n - inject_Z n) (1 # 2)) as [H | H | H];
    [ exfalso; lra | reflexivity | exfalso; lra ].
Qed.

Lemma rne_le (x y : Q) : x <= y -> (rne x <= rne y)%Z.
Proof.
  intros Hxy.
  pose proof (Qfloor_resp_le _ _ Hxy) as Hf.
  destruct (Z.eq_dec (Qfloor x) (Qfloor y)) as [E | N].
  - unfold rne. rewrite <- E.
    destruct (Qcompare_spec (x - inject_Z (Qfloor x)) (1 # 2)) as [Hx | Hx | Hx];
      destruct (Qcompare_spec (y - inject_Z (Qfloor x)) (1 # 2)) as [Hy | Hy | Hy];
      try destruct (Z.even (Qfloor x)); try lia; exfalso; lra.
  - destruct (rne_cases x) as [-> | ->], (rne_cases y) as [-> | ->]; lia.
Qed.

Lemma rne_eq (x y : Q) : x == y -> rne x = rne y.
Proof.
  intros E. apply Z.le_antisymm; apply rne_le; rewrite E; apply Qle_refl.
Qed.

Lemma rnd_at_le (q : Z) (x y : Q) : x <= y -> rnd_at q x <= rnd_at q y.
Proof.
  intros H. unfold rnd_at.
  apply Qmult_le_compat_r; [ | apply Qlt_le_weak, pow2_pos ].
  rewrite <- Zle_Qle. apply rne_le.
  apply Qmult_le_compat_r; [ exact H | ].
  apply Qlt_le_weak, Qinv_lt_0_compat, pow2_pos.
Qed.

Lemma rnd_at_zero (q : Z) : rnd_at q 0 == 0.
Proof.
  unfold rnd_at. rewrite (rne_eq (0 / 2 ^ q) (inject_Z 0)).
  - rewrite rne_inject. ring.
  - unfold Qdiv. ring.
Qed.

Lemma rnd_at_pow2 (q k : Z) : (q <= k)%Z -> rnd_at q (2 ^ k) == 2 ^ k.
Proof.
  intros H. unfold rnd_at.
  rewrite (rne_eq (2 ^ k / 2 ^ q) (inject_Z (2 ^ (k - q)))).
  - rewrite rne_inject, <- pow2_inject by lia.
    rewrite <- pow2_add. now replace (k - q + q)%Z with k by ring.
  - rewrite pow2_div. apply pow2_inject. lia.
Qed.

Lemma rnd_at_opp_pow2 (q k : Z) : (q <= k)%Z -> rnd_at q (- 2 ^ k) == - 2 ^ k.
Proof.
  intros H. unfold rnd_at.
  rewrite (rne_eq (- 2 ^ k / 2 ^ q) (inject_Z (- 2 ^ (k - q)))).
  - rewrite rne_inject, inject_Z_opp, <- pow2_inject by lia.
    setoid_replace (- 2 ^ (k - q) * 2 ^ q) with (- (2 ^ (k - q) * 2 ^ q)) by ring.
    rewrite <- pow2_add. now replace (k - q + q)%Z with k by ring.
  - rewrite inject_Z_opp, <- pow2_inject by lia. rewrite <- pow2_div.
    field. apply Qnot_eq_sym, Qlt_not_eq, pow2_pos.
Qed.

Lemma mag_spec (x : Q) :
  ~ x == 0 -> 2 ^ (mag x - 1) <= Qabs x /\ Qabs x < 2 ^ mag x.
Proof.
  intros Hx. destruct x as [n d].
  assert (Hn : (0 < Z.abs n)%Z).
  { destruct (Z.eq_dec n 0) as [-> | ]; [ | lia ]. exfalso. apply Hx. reflexivity. }
  set (a := Z.log2 (Z.abs n)). set (b := Z.log2 (Zpos d)).
  set (X := Qabs (n # d)).
  assert (HX : X * inject_Z (Zpos d) == inject_Z (Z.abs n)).
  { unfold X, Qabs, Qeq, Qmult, inject_Z. cbn [Qnum Qden].
    rewrite Pos.mul_1_r, Z.mul_1_r. reflexivity. }
  assert (Ha : 2 ^ a <= inject_Z (Z.abs n) /\ inject_Z (Z.abs n) < 2 ^ (a + 1)).
  { destruct (Z.log2_spec (Z.abs n) Hn) as [H1 H2]. fold a in H1, H2.
    pose proof (Z.log2_nonneg (Z.abs n)). fold a in H.
    rewrite !pow2_inject by lia. rewrite <- Zle_Qle, <- Zlt_Qlt.
    split; [ exact H1 | now rewrite <- Z.add_1_r in H2 ]. }
  assert (Hb : 2 ^ b <= inject_Z (Zpos d) /\ inject_Z (Zpos d) < 2 ^ (b + 1)).
  { destruct (Z.log2_spec (Zpos d) (Pos2Z.is_pos d)) as [H1 H2]. fold b in H1, H2.
    pose proof (Z.log2_nonneg (Zpos d)). fold b in H.
    rewrite !pow2_inject by lia. rewrite <- Zle_Qle, <- Zlt_Qlt.
    split; [ exact H1 | now rewrite <- Z.add_1_r in H2 ]. }
  assert (HX0 : 0 <= X) by apply Qabs_nonneg.
  assert (Hlo : 2 ^ (a - b - 1) < X).
  { pose proof (pow2_add (a - b - 1) (b + 1)) as E.
    replace (a - b - 1 + (b + 1))%Z with a in E by ring.
    pose proof (pow2_pos (a - b - 1)). pose proof (pow2_pos b).
    destruct (Qlt_le_dec (2 ^ (a - b - 1)) X) as [ | C]; [ assumption | exfalso ].
    assert (X * inject_Z (Zpos d) <= 2 ^ (a - b - 1) * inject_Z (Zpos d)).
    { apply Qmult_le_compat_r; [ exact C | lra ]. }
    assert (2 ^ (a - b - 1) * inject_Z (Zpos d) < 2 ^ (a - b - 1) * 2 ^ (b + 1)).
    { apply Qmult_lt_l; [ assumption | apply Hb ]. }
    lra. }
  assert (Hhi : X < 2 ^ (a - b + 1)).
  { pose proof (pow2_add (a - b + 1) b) as E.
    replace (a - b + 1 + b)%Z with (a + 1)%Z in E by ring.
    pose proof (pow2_pos (a - b + 1)). pose proof (pow2_pos b).
    destruct (Qlt_le_dec X (2 ^ (a - b + 1))) as [ | C]; [ assumption | exfalso ].
    assert (2 ^ (a - b + 1) * inject_Z (Zpos d) <= X * inject_Z (Zpos d)).
    { apply Qmult_le_compat_r; [ exact C | lra ]. }
    assert (2 ^ (a - b + 1) * 2 ^ b <= 2 ^ (a - b + 1) * inject_Z (Zpos d)).
    { apply Qmult_le_l; [ assumption | apply Hb ]. }
    lra. }
  unfold mag. cbn [Qnum Qden]. fold a b X.
  destruct (Qle_bool (2 ^ (a - b)) X) eqn:E.
  - apply Qle_bool_iff in E. replace (a - b + 1 - 1)%Z with (a - b)%Z by ring.
    split; assumption.
  - split; [ apply Qlt_le_weak; exact Hlo | ].
    destruct (Qlt_le_dec X (2 ^ (a - b))) as [ | C]; [ assumption | ].
    apply Qle_bool_iff in C. congruence.
Qed.

Lemma mag_le (x y : Q) :
  ~ x == 0 -> ~ y == 0 -> Qabs x <= Qabs y -> (mag x <= mag y)%Z.
Proof.
  intros Hx Hy H.
  destruct (mag_spec x Hx) as [Lx _], (mag_spec y Hy) as [_ Uy].
  assert (L : 2 ^ (mag x - 1) < 2 ^ mag y) by lra.
  apply pow2_lt_inv in L. lia.
Qed.

Section Format.

Variables p emin : Z.
Hypothesis p_pos : (1 <= p)%Z.

Lemma rnd_nonzero (x : Q) :
  ~ x == 0 -> rnd p emin x = rnd_at (fexp p emin (mag x)) x.
Proof.
  intros H. unfold rnd. destruct (Qeq_bool x 0) eqn:E; [ | reflexivity ].
  apply Qeq_bool_iff in E. contradiction.
Qed.

Lemma rnd_zero (x : Q) : x == 0 -> rnd p emin x == 0.
Proof.
  intros H. unfold rnd. apply Qeq_bool_iff in H. rewrite H. reflexivity.
Qed.

Lemma rnd_nonneg (x : Q) : 0 <= x -> 0 <= rnd p emin x.
Proof.
  intros H. unfold rnd. destruct (Qeq_bool x 0); [ apply Qle_refl | ].
  apply Qle_trans with (rnd_at (fexp p emin (mag x)) 0);
    [ rewrite rnd_at_zero; apply Qle_refl | now apply rnd_at_le ].
Qed.

Lemma rnd_nonpos (x : Q) : x <= 0 -> rnd p emin x <= 0.
Proof.
  intros H. unfold rnd. destruct (Qeq_bool x 0); [ apply Qle_refl | ].
  apply Qle_trans with (rnd_at (fexp p emin (mag x)) 0);
    [ now apply rnd_at_le | rewrite rnd_at_zero; apply Qle_refl ].
Qed.

Lemma rnd_le_pos (x y : Q) : 0 < x -> x <= y -> rnd p emin x <= rnd p emin y.
Proof.
  intros Hx Hxy.
  assert (Nx : ~ x == 0) by (intros E; rewrite E in Hx; discriminate Hx).
  assert (Hy : 0 < y) by lra.
  assert (Ny : ~ y == 0) by (intros E; rewrite E in Hy; discriminate Hy).
  rewrite !rnd_nonzero by assumption.
  assert (Hm : (mag x <= mag y)%Z).
  { apply mag_le; try assumption. rewrite !Qabs_pos by lra. exact Hxy. }
  destruct (mag_spec x Nx) as [_ Ux], (mag_spec y Ny) as [Ly _].
  rewrite Qabs_pos in Ux, Ly by lra.
  unfold fexp.
  destruct (Z.eq_dec (Z.max (mag x - p) emin) (Z.max (mag y - p) emin)) as [E | N].
  - rewrite E. now apply rnd_at_le.
  - set (qx := Z.max (mag x - p) emin) in *. set (qy := Z.max (mag y - p) emin) in *.
    assert (Hq : (qx <= mag y - 1 /\ qy <= mag y - 1 /\ mag x <= mag y - 1)%Z) by lia.
    destruct Hq as (Hqx & Hqy & Hmag).
    apply Qle_trans with (2 ^ (mag y - 1)).
    + apply Qle_trans with (rnd_at qx (2 ^ (mag y - 1)));
        [ | rewrite (rnd_at_pow2 qx (mag y - 1) Hqx); apply Qle_refl ].
      apply rnd_at_le. pose proof (pow2_le _ _ Hmag). lra.
    + apply Qle_trans with (rnd_at qy (2 ^ (mag y - 1)));
        [ rewrite (rnd_at_pow2 qy (mag y - 1) Hqy); apply Qle_refl | ].
      now apply rnd_at_le.
Qed.

Lemma rnd_le_neg (x y : Q) : y < 0 -> x <= y -> rnd p emin x <= rnd p emin y.
Proof.
  intros Hy Hxy.
  assert (Ny : ~ y == 0) by (intros E; rewrite E in Hy; discriminate Hy).
  assert (Hx : x < 0) by lra.
  assert (Nx : ~ x == 0) by (intros E; rewrite E in Hx; discriminate Hx).
  rewrite !rnd_nonzero by assumption.
  assert (Hm : (mag y <= mag x)%Z).
  { apply mag_le; try assumption. rewrite !Qabs_neg by lra. lra. }
  destruct (mag_spec x Nx) as [Lx _], (mag_spec y Ny) as [_ Uy].
  rewrite Qabs_neg in Lx, Uy by lra.
  unfold fexp.
  destruct (Z.eq_dec (Z.max (mag x - p) emin) (Z.max (mag y - p) emin)) as [E | N].
  - rewrite E. now apply rnd_at_le.
  - set (qx := Z.max (mag x - p) emin) in *. set (qy := Z.max (mag y - p) emin) in *.
    assert (Hq : (qx <= mag x - 1 /\ qy <= mag x - 1 /\ mag y <= mag x - 1)%Z) by lia.
    destruct Hq as (Hqx & Hqy & Hmag).
    apply Qle_trans with (- 2 ^ (mag x - 1)).
    + apply Qle_trans with (rnd_at qx (- 2 ^ (mag x - 1)));
        [ | rewrite (rnd_at_opp_pow2 qx (mag x - 1) Hqx); apply Qle_refl ].
      apply rnd_at_le. lra.
    + apply Qle_trans with (rnd_at qy (- 2 ^ (mag x - 1)));
        [ rewrite (rnd_at_opp_pow2 qy (mag x - 1) Hqy); apply Qle_refl | ].
      apply rnd_at_le. pose proof (pow2_le _ _ Hmag). lra.
Qed.

(** Round-to-nearest-even is monotone. *)
Lemma rnd_le (x y : Q) : x <= y -> rnd p emin x <= rnd p emin y.
Proof.
  intros Hxy.
  destruct (Qlt_le_dec 0 x) as [Hx | Hx]; [ now apply rnd_le_pos | ].
  destruct (Qlt_le_dec y 0) as [Hy | Hy]; [ now apply rnd_le_neg | ].
  apply Qle_trans with 0; [ now apply rnd_nonpos | now apply rnd_nonneg ].
Qed.

Lemma rnd_eq (x y : Q) : x == y -> rnd p emin x == rnd p emin y.
Proof.
  intros E. apply Qle_antisym; apply rnd_le; rewrite E; apply Qle_refl.
Qed.

End Format.

End Rounding.

(** ** The C++ operators are monotone *)

Section Operators.

Local Open Scope Q_scope.

Lemma binary32_le (x y : Q) : x <= y -> IEEE.binary32 x <= IEEE.binary32 y.
Proof. apply rnd_le. lia. Qed.

Lemma binary64_le (x y : Q) : x <= y -> IEEE.binary64 x <= IEEE.binary64 y.
Proof. apply rnd_le. lia. Qed.

Lemma binary32_eq (x y : Q) : x == y -> IEEE.binary32 x == IEEE.binary32 y.
Proof. apply rnd_eq. lia. Qed.

Lemma binary64_eq (x y : Q) : x == y -> IEEE.binary64 x == IEEE.binary64 y.
Proof. apply rnd_eq. lia. Qed.

Lemma double_of_int_le (m n : Z) : (m <= n)%Z -> double_of_int m <= double_of_int n.
Proof. intros H. apply binary64_le. now rewrite <- Zle_Qle. Qed.

Lemma float_of_int_le (m n : Z) : (m <= n)%Z -> float_of_int m <= float_of_int n.
Proof. intros H. apply binary32_le. now rewrite <- Zle_Qle. Qed.

Lemma double_lit_nonneg (x : Q) : 0 <= x -> 0 <= double_lit x.
Proof. apply rnd_nonneg. Qed.

Lemma dadd_le (x x' y y' : Q) : x <= x' -> y <= y' -> dadd x y <= dadd x' y'.
Proof. intros. apply binary64_le. lra. Qed.

Lemma dmul_le_l (c x y : Q) : 0 <= c -> x <= y -> dmul c x <= dmul c y.
Proof.
  intros Hc H. apply binary64_le.
  rewrite (Qmult_comm c x), (Qmult_comm c y). now apply Qmult_le_compat_r.
Qed.

Lemma dmul_le_r (c x y : Q) : 0 <= c -> x <= y -> dmul x c <= dmul y c.
Proof. intros Hc H. apply binary64_le. now apply Qmult_le_compat_r. Qed.

Lemma ddiv_le (c x y : Q) : 0 < c -> x <= y -> ddiv x c <= ddiv y c.
Proof.
  intros Hc H. apply binary64_le. apply Qmult_le_compat_r; [ exact H | ].
  apply Qlt_le_weak, Qinv_lt_0_compat, Hc.
Qed.

Lemma fadd_le (x x' y y' : Q) : x <= x' -> y <= y' -> fadd x y <= fadd x' y'.
Proof. intros. apply binary32_le. lra. Qed.

Lemma fsub_le (x x' y y' : Q) : x <= x' -> y' <= y -> fsub x y <= fsub x' y'.
Proof. intros. apply binary32_le. lra. Qed.

Lemma float_of_double_le (x y : Q) : x <= y -> float_of_double x <= float_of_double y.
Proof. apply binary32_le. Qed.

Lemma Qtrunc_le (x y : Q) : x <= y -> (Qtrunc x <= Qtrunc y)%Z.
Proof.
  intros H. unfold Qtrunc.
  destruct (Qle_bool 0 x) eqn:Ex, (Qle_bool 0 y) eqn:Ey.
  - now apply Qfloor_resp_le.
  - apply Qle_bool_iff in Ex.
    assert (0 <= y) by lra. apply Qle_bool_iff in H0. congruence.
  - apply Z.le_trans with (Qceiling 0).
    + apply Qceiling_resp_le.
      destruct (Qlt_le_dec x 0) as [L | L]; [ lra | ].
      apply Qle_bool_iff in L. congruence.
    + apply Qle_bool_iff in Ey. apply (Qfloor_resp_le 0 y Ey).
  - now apply Qceiling_resp_le.
Qed.

Lemma Qtrunc_nonneg (x : Q) : 0 <= x -> (0 <= Qtrunc x)%Z.
Proof. intros H. apply (Qtrunc_le 0 x H). Qed.

(** A cast whose operand lies between two operands with known casts. *)
Lemma uint32_of_double_between (lo hi x : Q) (a b : Z) :
  uint32_of_double lo = Some a -> uint32_of_double hi = Some b ->
  lo <= x -> x <= hi ->
  exists t, uint32_of_double x = Some t /\ (a <= t <= b)%Z.
Proof.
  unfold uint32_of_double. intros Ha Hb Hlo Hhi.
  destruct ((0 <=? Qtrunc lo)%Z && (Qtrunc lo <? 2 ^ 32)%Z) eqn:Ea; [ | discriminate ].
  destruct ((0 <=? Qtrunc hi)%Z && (Qtrunc hi <? 2 ^ 32)%Z) eqn:Eb; [ | discriminate ].
  injection Ha as <-. injection Hb as <-.
  apply andb_true_iff in Ea, Eb. destruct Ea as [Ea1 Ea2], Eb as [Eb1 Eb2].
  apply Z.leb_le in Ea1, Eb1. apply Z.ltb_lt in Ea2, Eb2.
  pose proof (Qtrunc_le _ _ Hlo). pose proof (Qtrunc_le _ _ Hhi).
  exists (Qtrunc x).
  replace ((0 <=? Qtrunc x)%Z && (Qtrunc x <? 2 ^ 32)%Z) with true.
  - split; [ reflexivity | lia ].
  - symmetry. apply andb_true_iff. split; [ apply Z.leb_le | apply Z.ltb_lt ]; lia.
Qed.

Lemma lumaCastArg_le (x y : Q) : x <= y -> lumaCastArg x <= lumaCastArg y.
Proof.
  intros H. unfold lumaCastArg, double_of_float.
  apply dmul_le_r; [ apply rnd_nonneg; discriminate | ].
  apply ddiv_le; [ reflexivity | exact H ].
Qed.

Lemma diffCastArg_le (x y : Q) : x <= y -> diffCastArg x <= diffCastArg y.
Proof.
  intros H. unfold diffCastArg, double_of_float.
  apply dmul_le_r; [ apply rnd_nonneg; discriminate | ].
  apply ddiv_le; [ reflexivity | ].
  apply dadd_le; [ exact H | apply Qle_refl ].
Qed.

Lemma averageDiff_le (a a' b b' : Q) :
  a <= a' -> b <= b' -> averageDiff a b <= averageDiff a' b'.
Proof.
  intros Ha Hb. unfold averageDiff, double_of_float.
  apply float_of_double_le, ddiv_le; [ reflexivity | now apply fadd_le ].
Qed.

End Operators.

(** ** Ranges of the colour transform and of the frequency mapping *)

Section Ranges.

Local Open Scope Q_scope.

Lemma forall_below_spec (n : nat) (f : Z -> bool) :
  forall_below n f = true -> forall z, (0 <= z < Z.of_nat n)%Z -> f z = true.
Proof.
  induction n as [ | k IH]; intros H z Hz; [ lia | ].
  cbn [forall_below] in H. apply andb_true_iff in H. destruct H as [H1 H2].
  destruct (Z.eq_dec z (Z.of_nat k)) as [-> | N]; [ exact H1 | ].
  apply IH; [ exact H2 | lia ].
Qed.

Lemma luma_le (R R' G G' B B' : Z) :
  (R <= R')%Z -> (G <= G')%Z -> (B <= B')%Z -> luma R G B <= luma R' G' B'.
Proof.
  intros HR HG HB. unfold luma, convertToSSTV. cbn [fst].
  apply float_of_double_le.
  apply dadd_le; [ apply dadd_le | ];
    (apply dmul_le_l; [ apply double_lit_nonneg; discriminate | ]);
    apply double_of_int_le; assumption.
Qed.

Lemma luma_gray_check :
  forall_below 256 (fun c => Qeq_bool (luma c c c) (inject_Z c)
                             && Qeq_bool (redDiff c c c) 0
                             && Qeq_bool (blueDiff c c c) 0) = true.
Proof. vm_compute. reflexivity. Qed.

Lemma luma_gray (c : Z) : (0 <= c <= 255)%Z -> luma c c c == inject_Z c.
Proof.
  intros H. pose proof (forall_below_spec _ _ luma_gray_check c ltac:(lia)) as E.
  cbv beta in E. apply andb_true_iff in E. destruct E as [E _].
  apply andb_true_iff in E. destruct E as [E _]. now apply Qeq_bool_iff.
Qed.

Lemma luma_range (R G B : Z) :
  (0 <= R <= 255)%Z -> (0 <= G <= 255)%Z -> (0 <= B <= 255)%Z ->
  0 <= luma R G B <= 255.
Proof.
  intros HR HG HB. split.
  - apply Qle_trans with (luma 0 0 0); [ vm_compute; discriminate | ].
    apply luma_le; lia.
  - apply Qle_trans with (luma 255 255 255); [ apply luma_le; lia | ].
    vm_compute; discriminate.
Qed.

Lemma redDiff_luma (R G B : Z) :
  redDiff R G B
  = float_of_double
      (dmul (double_lit (713 # 1000))
            (double_of_float (fsub (float_of_int R) (luma R G B)))).
Proof.
  cbv beta zeta iota delta [redDiff luma convertToSSTV fst snd]. reflexivity.
Qed.

Lemma blueDiff_luma (R G B : Z) :
  blueDiff R G B
  = float_of_double
      (dmul (double_lit (564 # 1000))
            (double_of_float (fsub (float_of_int B) (luma R G B)))).
Proof.
  cbv beta zeta iota delta [blueDiff luma convertToSSTV fst snd]. reflexivity.
Qed.

Lemma redDiff_le (R G G' B B' : Z) :
  (G <= G')%Z -> (B <= B')%Z -> redDiff R G' B' <= redDiff R G B.
Proof.
  intros HG HB. rewrite !redDiff_luma.
  apply float_of_double_le.
  apply dmul_le_l; [ apply double_lit_nonneg; discriminate | ].
  unfold double_of_float. apply fsub_le; [ apply Qle_refl | ].
  apply luma_le; lia.
Qed.

Lemma blueDiff_le (R R' G G' B : Z) :
  (R <= R')%Z -> (G <= G')%Z -> blueDiff R' G' B <= blueDiff R G B.
Proof.
  intros HR HG. rewrite !blueDiff_luma.
  apply float_of_double_le.
  apply dmul_le_l; [ apply double_lit_nonneg; discriminate | ].
  unfold double_of_float. apply fsub_le; [ apply Qle_refl | ].
  apply luma_le; lia.
Qed.

Lemma diff_extremes_check :
  forall_below 256 (fun v => Qle_bool (redDiff v 0 0) (255 # 2)
                             && Qle_bool (- (255 # 2)) (redDiff v 255 255)
                             && Qle_bool (blueDiff 0 0 v) (255 # 2)
                             && Qle_bool (- (255 # 2)) (blueDiff 255 255 v)) = true.
Proof. vm_compute. reflexivity. Qed.

Lemma redDiff_range (R G B : Z) :
  (0 <= R <= 255)%Z -> (0 <= G <= 255)%Z -> (0 <= B <= 255)%Z ->
  - (255 # 2) <= redDiff R G B <= 255 # 2.
Proof.
  intros HR HG HB.
  pose proof (forall_below_spec _ _ diff_extremes_check R ltac:(lia)) as E.
  cbv beta in E. rewrite !andb_true_iff in E. destruct E as [[[E1 E2] _] _].
  apply Qle_bool_iff in E1, E2. split.
  - apply Qle_trans with (redDiff R 255 255); [ exact E2 | apply redDiff_le; lia ].
  - apply Qle_trans with (redDiff R 0 0); [ apply redDiff_le; lia | exact E1 ].
Qed.

Lemma blueDiff_range (R G B : Z) :
  (0 <= R <= 255)%Z -> (0 <= G <= 255)%Z -> (0 <= B <= 255)%Z ->
  - (255 # 2) <= blueDiff R G B <= 255 # 2.
Proof.
  intros HR HG HB.
  pose proof (forall_below_spec _ _ diff_extremes_check B ltac:(lia)) as E.
  cbv beta in E. rewrite !andb_true_iff in E. destruct E as [[_ E1] E2].
  apply Qle_bool_iff in E1, E2. split.
  - apply Qle_trans with (blueDiff 255 255 B); [ exact E2 | apply blueDiff_le; lia ].
  - apply Qle_trans with (blueDiff 0 0 B); [ apply blueDiff_le; lia | exact E1 ].
Qed.

Lemma averageDiff_range (a b : Q) :
  - (255 # 2) <= a <= 255 # 2 -> - (255 # 2) <= b <= 255 # 2 ->
  - (255 # 2) <= averageDiff a b <= 255 # 2.
Proof.
  intros [Ha1 Ha2] [Hb1 Hb2]. split.
  - apply Qle_trans with (averageDiff (- (255 # 2)) (- (255 # 2)));
      [ vm_compute; discriminate | now apply averageDiff_le ].
  - apply Qle_trans with (averageDiff (255 # 2) (255 # 2));
      [ now apply averageDiff_le | vm_compute; discriminate ].
Qed.

Lemma u32_small (z : Z) : (0 <= z < 2 ^ 32)%Z -> u32 z = z.
Proof. intros H. unfold u32. now apply Z.mod_small. Qed.

Lemma mapYToFrequency_range (Y : Q) :
  0 <= Y <= 255 ->
  exists f, mapYToFrequency Y = Some f /\ (1500 <= f <= 2300)%Z.
Proof.
  intros [H0 H255].
  destruct (uint32_of_double_between (lumaCastArg 0) (lumaCastArg 255)
              (lumaCastArg Y) 0 800) as (t & Et & Ht);
    [ vm_compute; reflexivity | vm_compute; reflexivity
    | now apply lumaCastArg_le | now apply lumaCastArg_le | ].
  exists (1500 + t)%Z. unfold mapYToFrequency. fold (lumaCastArg Y). rewrite Et.
  rewrite u32_small by lia. split; [ reflexivity | lia ].
Qed.

Lemma mapDiffToFrequency_range (d : Q) :
  - (255 # 2) <= d <= 255 # 2 ->
  exists f, mapDiffToFrequency d = Some f /\ (1501 <= f <= 2301)%Z.
Proof.
  intros [Hlo Hhi].
  destruct (uint32_of_double_between (diffCastArg (- (255 # 2))) (diffCastArg (255 # 2))
              (diffCastArg d) 1 801) as (t & Et & Ht);
    [ vm_compute; reflexivity | vm_compute; reflexivity
    | now apply diffCastArg_le | now apply diffCastArg_le | ].
  exists (1500 + t)%Z. unfold mapDiffToFrequency. fold (diffCastArg d). rewrite Et.
  rewrite u32_small by lia. split; [ reflexivity | lia ].
Qed.

Lemma u8_range (z : Z) : (0 <= u8 z <= 255)%Z.
Proof. unfold u8. pose proof (Z.mod_pos_bound z (2 ^ 8) ltac:(lia)). lia. Qed.

Lemma unpackRGB565_range (pixel : Z) :
  let '(R, G, B) := unpackRGB565 pixel in
  (0 <= R <= 255)%Z /\ (0 <= G <= 255)%Z /\ (0 <= B <= 255)%Z.
Proof. unfold unpackRGB565. repeat split; apply u8_range. Qed.

(** Every column of every segment over every surface has a tone, and the
    tone lies between 1500 and 2301 Hz. *)
Lemma tickTone_range (cv : Z -> Z) (sg : segment) (x : Z) :
  exists f, tickTone cv sg x = Some f /\ (1500 <= f <= 2301)%Z.
Proof.
  destruct sg as [row | o e | o e]; unfold tickTone, sampleRGB8.
  - pose proof (unpackRGB565_range (cv (row * imageWidth + x)%Z)) as H.
    destruct (unpackRGB565 _) as [[R G] B]. destruct H as (HR & HG & HB).
    destruct (mapYToFrequency_range (luma R G B)) as (f & E & Hf);
      [ now apply luma_range | ].
    exists f. split; [ exact E | lia ].
  - pose proof (unpackRGB565_range (cv (o * imageWidth + x)%Z)) as H1.
    pose proof (unpackRGB565_range (cv (e * imageWidth + x)%Z)) as H2.
    destruct (unpackRGB565 (cv (o * imageWidth + x)%Z)) as [[R1 G1] B1].
    destruct (unpackRGB565 (cv (e * imageWidth + x)%Z)) as [[R2 G2] B2].
    destruct H1 as (? & ? & ?), H2 as (? & ? & ?).
    destruct (mapDiffToFrequency_range
                (averageDiff (redDiff R1 G1 B1) (redDiff R2 G2 B2)))
      as (f & E & Hf);
      [ apply averageDiff_range; now apply redDiff_range | ].
    exists f. split; [ exact E | lia ].
  - pose proof (unpackRGB565_range (cv (o * imageWidth + x)%Z)) as H1.
    pose proof (unpackRGB565_range (cv (e * imageWidth + x)%Z)) as H2.
    destruct (unpackRGB565 (cv (o * imageWidth + x)%Z)) as [[R1 G1] B1].
    destruct (unpackRGB565 (cv (e * imageWidth + x)%Z)) as [[R2 G2] B2].
    destruct H1 as (? & ? & ?), H2 as (? & ? & ?).
    destruct (mapDiffToFrequency_range
                (averageDiff (blueDiff R1 G1 B1) (blueDiff R2 G2 B2)))
      as (f & E & Hf);
      [ apply averageDiff_range; now apply blueDiff_range | ].
    exists f. split; [ exact E | lia ].
Qed.

End Ranges.

(** ** One evaluation of the timer callback *)

Lemma getCanvasPixel_ok (st : state) (x y : Z) :
  0 <= x < imageWidth -> 0 <= y < imageHeight ->
  getCanvasPixel x y st = Some (sampleRGB8 (canvas st) x y, emit (EvRead x y) st).
Proof.
  intros Hx Hy. unfold getCanvasPixel, getBuffer, bind, modify, get, ret, fail.
  unfold imageWidth, imageHeight in *.
  replace ((0 <=? y * 640 + x) && (y * 640 + x <? 640 * 496)) with true
    by (symmetry; apply andb_true_iff; split; [ apply Z.leb_le | apply Z.ltb_lt ]; lia).
  destruct st; reflexivity.
Qed.

Lemma luma_let {A} (R G B : Z) (F : Q -> A) :
  (let '(Y, _, _) := convertToSSTV R G B in F Y) = F (luma R G B).
Proof. unfold luma. destruct (convertToSSTV R G B) as [[Y RY] BY]. reflexivity. Qed.

Lemma redDiff_let {A} (R G B : Z) (F : Q -> A) :
  (let '(_, RY, _) := convertToSSTV R G B in F RY) = F (redDiff R G B).
Proof. unfold redDiff. destruct (convertToSSTV R G B) as [[Y RY] BY]. reflexivity. Qed.

Lemma blueDiff_let {A} (R G B : Z) (F : Q -> A) :
  (let '(_, _, BY) := convertToSSTV R G B in F BY) = F (blueDiff R G B).
Proof. unfold blueDiff. destruct (convertToSSTV R G B) as [[Y RY] BY]. reflexivity. Qed.

Ltac state_simpl :=
  cbn [canvas pixelCounter rowFinished currentSegment currentRow currentRowOdd
       currentRowEven timerActive ticks log emit count_tick set_pixelCounter
       set_rowFinished set_currentSegment set_currentRow set_currentRowOdd
       set_currentRowEven set_timerActive] in *.

Ltac finish_tick E :=
  unfold liftOpt, bind, ledcWriteTone, modify, get, esp_timer_stop, ret;
  state_simpl;
  match goal with
  | |- context [imageWidth <=? ?v] => destruct (imageWidth <=? v) eqn:E
  end;
  (eexists; split; [ reflexivity | ]);
  unfold tickPost, segmentOf, tickEvents, tickReads; state_simpl;
  rewrite E; repeat split;
  repeat rewrite <- app_assoc; cbn [app]; congruence.

Lemma pixelTimerCallback_ok (st : state) :
  0 <= pixelCounter st < imageWidth -> rowsInRange (segmentOf st) ->
  exists st', pixelTimerCallback st = Some (tt, st') /\ tickPost st st'.
Proof.
  intros Hx Hrows.
  destruct (tickTone_range (canvas st) (segmentOf st) (pixelCounter st)) as (f & Ef & _).
  assert (Efreq : tickFreq (canvas st) (segmentOf st) (pixelCounter st) = f)
    by (unfold tickFreq; now rewrite Ef).
  unfold pixelTimerCallback.
  unfold bind at 1. unfold modify at 1. unfold bind at 1. unfold get at 1.
  destruct st as [cv pc rf seg row odd even ta tk lg].
  unfold segmentOf in *. state_simpl.
  destruct seg; cbn [rowsInRange] in Hrows; unfold tickTone in Ef.
  - unfold bind at 1. unfold bind at 1. rewrite getCanvasPixel_ok by assumption.
    state_simpl.
    destruct (sampleRGB8 cv pc row) as [[R G] B].
    rewrite luma_let, Ef. finish_tick E.
  - destruct Hrows as [Ho He].
    unfold bind at 1. unfold bind at 1. rewrite getCanvasPixel_ok by assumption.
    unfold bind at 1. rewrite getCanvasPixel_ok by assumption.
    state_simpl.
    destruct (sampleRGB8 cv pc odd) as [[R1 G1] B1].
    destruct (sampleRGB8 cv pc even) as [[R2 G2] B2].
    rewrite redDiff_let, redDiff_let.
    unfold averageDiff in Ef. rewrite Ef. finish_tick E.
  - destruct Hrows as [Ho He].
    unfold bind at 1. unfold bind at 1. rewrite getCanvasPixel_ok by assumption.
    unfold bind at 1. rewrite getCanvasPixel_ok by assumption.
    state_simpl.
    destruct (sampleRGB8 cv pc odd) as [[R1 G1] B1].
    destruct (sampleRGB8 cv pc even) as [[R2 G2] B2].
    rewrite blueDiff_let, blueDiff_let.
    unfold averageDiff in Ef. rewrite Ef. finish_tick E.
Qed.

(** ** The periodic timer and the wait loop *)

Lemma timer_fire_active (st : state) :
  timerActive st = true -> timer_fire st = pixelTimerCallback st.
Proof. intros H. unfold timer_fire, bind, get. now rewrite H. Qed.

Lemma timer_fire_stopped (st : state) :
  timerActive st = false -> timer_fire st = None.
Proof. intros H. unfold timer_fire, bind, get, fail. now rewrite H. Qed.

Lemma waitRowFinished_done (fuel : nat) (st : state) :
  rowFinished st = true -> waitRowFinished fuel st = Some (tt, st).
Proof. intros H. destruct fuel; cbn [waitRowFinished]; unfold bind, get, ret; now rewrite H. Qed.

Lemma waitRowFinished_step (fuel : nat) (st : state) :
  rowFinished st = false ->
  waitRowFinished (S fuel) st
  = match timer_fire st with
    | Some (_, st') => waitRowFinished fuel st'
    | None => None
    end.
Proof.
  intros H. cbn [waitRowFinished]. unfold bind at 1. unfold get at 1. rewrite H.
  unfold bind at 1. destruct (timer_fire st) as [[[] st'] | ]; reflexivity.
Qed.

Lemma fire_n_step (n : nat) (st : state) :
  fire_n (S n) st
  = match timer_fire st with
    | Some (_, st') => fire_n n st'
    | None => None
    end.
Proof.
  cbn [fire_n]. unfold bind at 1. destruct (timer_fire st) as [[[] st'] | ]; reflexivity.
Qed.

Lemma tones_app (l1 l2 : list event) : tones (l1 ++ l2) = tones l1 ++ tones l2.
Proof.
  induction l1 as [ | e l1 IH]; [ reflexivity | ].
  destruct e; cbn [tones app]; rewrite IH; reflexivity.
Qed.

Lemma reads_app (l1 l2 : list event) : reads (l1 ++ l2) = reads l1 ++ reads l2.
Proof.
  induction l1 as [ | e l1 IH]; [ reflexivity | ].
  destruct e; cbn [reads app]; rewrite IH; reflexivity.
Qed.

Lemma tones_tickEvents (cv : Z -> Z) (sg : segment) (x : Z) :
  tones (tickEvents cv sg x) = [tickFreq cv sg x].
Proof. destruct sg; reflexivity. Qed.

(** The first [k] periods of a segment: the row is not finished. *)
Lemma fire_n_running (k : nat) :
  forall st,
    timerActive st = true -> rowFinished st = false ->
    0 <= pixelCounter st -> pixelCounter st + Z.of_nat k < imageWidth ->
    rowsInRange (segmentOf st) ->
    exists st',
      fire_n k st = Some (tt, st') /\
      canvas st' = canvas st /\ segmentOf st' = segmentOf st /\
      timerActive st' = true /\ rowFinished st' = false /\
      pixelCounter st' = pixelCounter st + Z.of_nat k /\
      ticks st' = ticks st + Z.of_nat k /\
      log st' = log st
                ++ flat_map (tickEvents (canvas st) (segmentOf st))
                            (columns (pixelCounter st) k).
Proof.
  induction k as [ | k IH]; intros st Ha Hf H0 Hk Hrows.
  - exists st. cbn [fire_n columns flat_map]. unfold ret.
    rewrite app_nil_r, !Z.add_0_r. repeat split; try assumption; reflexivity.
  - rewrite fire_n_step, timer_fire_active by assumption.
    destruct (pixelTimerCallback_ok st) as (s1 & E1 & P1); [ lia | assumption | ].
    rewrite E1. unfold tickPost in P1.
    destruct P1 as (Pc & Pp & Ps & Pr & Po & Pe & Pt & Plast).
    replace (imageWidth <=? pixelCounter st + 1) with false in Plast
      by (symmetry; apply Z.leb_gt; lia).
    destruct Plast as (Pf & Pa & Pl).
    assert (Hseg : segmentOf s1 = segmentOf st)
      by (unfold segmentOf; now rewrite Ps, Pr, Po, Pe).
    destruct (IH s1) as (st' & E & Qc & Qs & Qa & Qf & Qp & Qt & Ql);
      [ congruence | congruence | lia | lia | now rewrite Hseg | ].
    exists st'. rewrite E. cbn [columns flat_map].
    rewrite Qc, Qs, Qp, Qt, Ql, Pc, Hseg, Pp, Pt, Pl, <- !app_assoc.
    repeat split; try reflexivity; try assumption; lia.
Qed.

(** A whole segment from column [pixelCounter st]: the wait loop returns
    after exactly the remaining number of periods. *)
Lemma waitRowFinished_run (n : nat) :
  forall st fuel,
    timerActive st = true -> rowFinished st = false ->
    0 <= pixelCounter st -> pixelCounter st + Z.of_nat (S n) = imageWidth ->
    rowsInRange (segmentOf st) -> (S n <= fuel)%nat ->
    exists st',
      waitRowFinished fuel st = Some (tt, st') /\
      fire_n (S n) st = Some (tt, st') /\
      canvas st' = canvas st /\
      timerActive st' = false /\ rowFinished st' = true /\
      pixelCounter st' = imageWidth /\
      ticks st' = ticks st + Z.of_nat (S n) /\
      log st' = log st
                ++ flat_map (tickEvents (canvas st) (segmentOf st))
                            (columns (pixelCounter st) (S n))
                ++ [EvTimerStop].
Proof.
  induction n as [ | n IH]; intros st fuel Ha Hf H0 Hn Hrows Hfuel.
  - destruct fuel as [ | fuel]; [ lia | ].
    rewrite waitRowFinished_step, fire_n_step, timer_fire_active by assumption.
    destruct (pixelTimerCallback_ok st) as (s1 & E1 & P1); [ lia | assumption | ].
    rewrite E1. unfold tickPost in P1.
    destruct P1 as (Pc & Pp & Ps & Pr & Po & Pe & Pt & Plast).
    replace (imageWidth <=? pixelCounter st + 1) with true in Plast
      by (symmetry; apply Z.leb_le; lia).
    destruct Plast as (Pf & Pa & Pl).
    exists s1. rewrite waitRowFinished_done by assumption.
    cbn [fire_n columns flat_map]. unfold ret. rewrite app_nil_r.
    repeat split; try assumption; try reflexivity; lia.
  - destruct fuel as [ | fuel]; [ lia | ].
    rewrite waitRowFinished_step, fire_n_step, timer_fire_active by assumption.
    destruct (pixelTimerCallback_ok st) as (s1 & E1 & P1); [ lia | assumption | ].
    rewrite E1. unfold tickPost in P1.
    destruct P1 as (Pc & Pp & Ps & Pr & Po & Pe & Pt & Plast).
    replace (imageWidth <=? pixelCounter st + 1) with false in Plast
      by (symmetry; apply Z.leb_gt; lia).
    destruct Plast as (Pf & Pa & Pl).
    assert (Hseg : segmentOf s1 = segmentOf st)
      by (unfold segmentOf; now rewrite Ps, Pr, Po, Pe).
    destruct (IH s1 fuel) as (st' & E & F & Qc & Qa & Qf & Qp & Qt & Ql);
      [ congruence | congruence | lia | lia | now rewrite Hseg | lia | ].
    exists st'. rewrite E, F.
    cbn [columns flat_map] in *.
    rewrite Qc, Qt, Ql, Pc, Hseg, Pp, Pt, Pl, <- !app_assoc.
    repeat split; try reflexivity; try assumption; lia.
Qed.

Lemma transmitSegment_arm (fuel : nat) (sg : segment) (st : state) :
  transmitSegment fuel sg st = waitRowFinished fuel (armSegment sg st).
Proof. destruct sg; reflexivity. Qed.

Lemma armSegment_facts (sg : segment) (st : state) :
  canvas (armSegment sg st) = canvas st /\
  segmentOf (armSegment sg st) = sg /\
  timerActive (armSegment sg st) = true /\
  rowFinished (armSegment sg st) = false /\
  pixelCounter (armSegment sg st) = 0 /\
  ticks (armSegment sg st) = ticks st /\
  log (armSegment sg st) = log st ++ [EvTimerStart 190].
Proof. destruct sg; repeat split; reflexivity. Qed.

(** A begin-segment function runs its 640 columns and returns. *)
Lemma transmitSegment_ok (fuel : nat) (sg : segment) (st : state) :
  rowsInRange sg -> (640 <= fuel)%nat ->
  exists st',
    transmitSegment fuel sg st = Some (tt, st') /\
    fire_n 640 (armSegment sg st) = Some (tt, st') /\
    canvas st' = canvas st /\
    timerActive st' = false /\ rowFinished st' = true /\
    ticks st' = ticks st + 640 /\
    log st' = log st ++ segmentEvents (canvas st) sg.
Proof.
  intros Hrows Hfuel.
  destruct (armSegment_facts sg st) as (Ac & As & Aa & Af & Ap & At & Al).
  destruct (waitRowFinished_run 639 (armSegment sg st) fuel)
    as (st' & E & F & Qc & Qa & Qf & Qp & Qt & Ql);
    [ assumption | assumption | lia | rewrite Ap; reflexivity
    | now rewrite As | lia | ].
  exists st'. rewrite transmitSegment_arm, E.
  rewrite Qc, Qt, Ql, Ac, As, Ap, At, Al.
  unfold segmentEvents. rewrite <- app_assoc.
  repeat split; try assumption; try reflexivity.
Qed.

(** ** Line pairs and the whole picture *)

Lemma bind_some {A B} (c : M A) (k : A -> M B) (st st' : state) (a : A) :
  c st = Some (a, st') -> bind c k st = k a st'.
Proof. intros H. unfold bind. now rewrite H. Qed.

(** One line pair: sync, porch and the four segments. *)
Lemma linePair_ok (fuel : nat) (k : Z) (st : state) :
  0 <= k < 248 -> (640 <= fuel)%nat ->
  exists st',
    linePair fuel k st = Some (tt, st') /\
    canvas st' = canvas st /\
    ticks st' = ticks st + 2560 /\
    log st' = log st ++ linePairEvents (canvas st) k.
Proof.
  intros Hk Hfuel. unfold linePair.
  replace (k * 2) with (2 * k) by ring.
  set (s0 := emit (EvDelay porchDuration)
               (emit (EvTone 1500)
                  (emit (EvDelay syncPulseDuration) (emit (EvTone 1200) st)))).
  change (transmitLineY_HW fuel (2 * k)) with (transmitSegment fuel (Luminance (2 * k))).
  change (transmitLineDiffRY_HW fuel (2 * k) (2 * k + 1))
    with (transmitSegment fuel (RedDifference (2 * k) (2 * k + 1))).
  change (transmitLineDiffBY_HW fuel (2 * k) (2 * k + 1))
    with (transmitSegment fuel (BlueDifference (2 * k) (2 * k + 1))).
  change (transmitLineY_HW fuel (2 * k + 1))
    with (transmitSegment fuel (Luminance (2 * k + 1))).
  destruct (transmitSegment_ok fuel (Luminance (2 * k)) s0)
    as (s1 & E1 & _ & C1 & _ & _ & T1 & L1);
    [ cbn [rowsInRange]; unfold imageHeight; lia | assumption | ].
  destruct (transmitSegment_ok fuel (RedDifference (2 * k) (2 * k + 1)) s1)
    as (s2 & E2 & _ & C2 & _ & _ & T2 & L2);
    [ cbn [rowsInRange]; unfold imageHeight; lia | assumption | ].
  destruct (transmitSegment_ok fuel (BlueDifference (2 * k) (2 * k + 1)) s2)
    as (s3 & E3 & _ & C3 & _ & _ & T3 & L3);
    [ cbn [rowsInRange]; unfold imageHeight; lia | assumption | ].
  destruct (transmitSegment_ok fuel (Luminance (2 * k + 1)) s3)
    as (s4 & E4 & _ & C4 & _ & _ & T4 & L4);
    [ cbn [rowsInRange]; unfold imageHeight; lia | assumption | ].
  exists s4.
  rewrite (bind_some _ _ st (emit (EvTone 1200) st) tt) by reflexivity.
  rewrite (bind_some _ _ _ (emit (EvDelay syncPulseDuration) (emit (EvTone 1200) st)) tt)
    by reflexivity.
  rewrite (bind_some _ _ _ (emit (EvTone 1500)
                              (emit (EvDelay syncPulseDuration) (emit (EvTone 1200) st))) tt)
    by reflexivity.
  rewrite (bind_some _ _ _ s0 tt) by reflexivity.
  rewrite (bind_some _ _ _ _ _ E1), (bind_some _ _ _ _ _ E2), (bind_some _ _ _ _ _ E3).
  split; [ exact E4 | ].
  assert (K0 : canvas s0 = canvas st) by reflexivity.
  rewrite K0 in C1, L1. rewrite C1 in C2, L2. rewrite C2 in C3, L3.
  rewrite C3 in C4, L4.
  rewrite C4, T4, T3, T2, T1, L4, L3, L2, L1.
  unfold linePairEvents, s0, syncPulseDuration, porchDuration.
  cbn [canvas ticks log emit].
  rewrite <- !app_assoc. cbn [app].
  repeat split; try reflexivity; lia.
Qed.

Lemma pairLoop_ok (n : nat) :
  forall (fuel cnt : nat) (pair : Z) (st : state),
    0 <= pair -> pair + Z.of_nat n = 248 -> (n <= cnt)%nat -> (640 <= fuel)%nat ->
    exists st',
      pairLoop fuel cnt pair 248 st = Some (tt, st') /\
      canvas st' = canvas st /\
      ticks st' = ticks st + 2560 * Z.of_nat n /\
      log st' = log st ++ flat_map (linePairEvents (canvas st)) (columns pair n).
Proof.
  induction n as [ | n IH]; intros fuel cnt pair st H0 Hn Hcnt Hfuel.
  - exists st. destruct cnt; cbn [pairLoop columns flat_map];
      (replace (pair <? 248) with false by (symmetry; apply Z.ltb_ge; lia));
      unfold ret; rewrite app_nil_r; repeat split; try reflexivity; lia.
  - destruct cnt as [ | cnt]; [ lia | ]. cbn [pairLoop].
    replace (pair <? 248) with true by (symmetry; apply Z.ltb_lt; lia).
    destruct (linePair_ok fuel pair st) as (s1 & E1 & C1 & T1 & L1);
      [ lia | assumption | ].
    rewrite (bind_some _ _ _ _ _ E1).
    destruct (IH fuel cnt (pair + 1) s1) as (st' & E & C & T & L);
      [ lia | lia | lia | assumption | ].
    exists st'. rewrite E, C, T, L, C1, T1, L1. cbn [columns flat_map].
    rewrite <- !app_assoc. repeat split; try reflexivity; lia.
Qed.

(** The whole picture. *)
Lemma transmitPD120Image_HW_ok (fuel : nat) (st : state) :
  (640 <= fuel)%nat ->
  exists st',
    transmitPD120Image_HW fuel st = Some (tt, st') /\
    canvas st' = canvas st /\
    ticks st' = ticks st + 634880 /\
    log st' = log st ++ imageEvents (canvas st).
Proof.
  intros Hfuel. unfold transmitPD120Image_HW.
  change (imageHeight / 2) with 248.
  destruct (pairLoop_ok 248 fuel fuel 0 st) as (s1 & E1 & C1 & T1 & L1);
    [ lia | reflexivity | lia | assumption | ].
  rewrite (bind_some _ _ _ _ _ E1).
  exists (emit EvLedcStop s1). split; [ reflexivity | ].
  cbn [canvas ticks log emit]. rewrite C1, T1, L1. unfold imageEvents.
  rewrite <- app_assoc. repeat split; try reflexivity; lia.
Qed.

(** ** The scan segment, the picture and the header *)

Lemma columns_In (n : nat) : forall a x, In x (columns a n) <-> a <= x < a + Z.of_nat n.
Proof.
  induction n as [ | n IH]; intros a x; cbn [columns In].
  - lia.
  - rewrite IH. lia.
Qed.

Lemma columns_length (n : nat) : forall a, length (columns a n) = n.
Proof. induction n as [ | n IH]; intros a; cbn [columns length]; [ | rewrite IH ]; reflexivity. Qed.

Lemma columns_nth (n : nat) :
  forall a k, (k < n)%nat -> nth k (columns a n) 0 = a + Z.of_nat k.
Proof.
  induction n as [ | n IH]; intros a k Hk; [ lia | ].
  destruct k as [ | k]; cbn [columns nth]; [ lia | ].
  rewrite IH by lia. lia.
Qed.

Lemma tones_flat_map_ticks (cv : Z -> Z) (sg : segment) (l : list Z) :
  tones (flat_map (tickEvents cv sg) l) = map (tickFreq cv sg) l.
Proof.
  induction l as [ | x l IH]; [ reflexivity | ].
  cbn [flat_map map]. rewrite tones_app, tones_tickEvents, IH. reflexivity.
Qed.

Lemma tones_segmentEvents (cv : Z -> Z) (sg : segment) :
  tones (segmentEvents cv sg) = map (tickFreq cv sg) (columns 0 640).
Proof.
  unfold segmentEvents. cbn [tones]. rewrite tones_app, tones_flat_map_ticks.
  cbn [tones]. apply app_nil_r.
Qed.

(** C3: for every begin-segment call ([transmitLineY_HW],
    [transmitLineDiffRY_HW], [transmitLineDiffBY_HW]) on rows of the surface,
    the call returns after exactly 640 evaluations of [pixelTimerCallback];
    each evaluation performs exactly one tone update (640 in all, the tones
    of columns 0..639); [rowFinished] is still false after each of the first
    639 evaluations and true after the 640th, which also stops the timer, so
    that no further evaluation happens. *)
Theorem C3_segment_runs_640_ticks (fuel : nat) (sg : segment) (st : state) :
  rowsInRange sg -> (640 <= fuel)%nat ->
  exists st',
    transmitSegment fuel sg st = Some (tt, st') /\
    fire_n 640 (armSegment sg st) = Some (tt, st') /\
    ticks st' = ticks st + 640 /\
    tones (log st') = tones (log st) ++ map (tickFreq (canvas st) sg) (columns 0 640) /\
    length (map (tickFreq (canvas st) sg) (columns 0 640)) = 640%nat /\
    rowFinished st' = true /\
    timer_fire st' = None /\
    forall k, (k < 640)%nat ->
      exists sk,
        fire_n k (armSegment sg st) = Some (tt, sk) /\
        rowFinished sk = false /\
        ticks sk = ticks st + Z.of_nat k /\
        length (tones (log sk)) = (length (tones (log st)) + k)%nat.
Proof.
  intros Hrows Hfuel.
  destruct (transmitSegment_ok fuel sg st Hrows Hfuel)
    as (st' & E & F & C & A & R & T & L).
  exists st'. repeat split; try assumption.
  - rewrite L, tones_app, tones_segmentEvents. reflexivity.
  - now apply timer_fire_stopped.
  - intros k Hk.
    destruct (armSegment_facts sg st) as (Ac & As & Aa & Af & Ap & At & Al).
    destruct (fire_n_running k (armSegment sg st))
      as (sk & Ek & Kc & Ks & Ka & Kf & Kp & Kt & Kl);
      [ assumption | assumption | lia | rewrite Ap; unfold imageWidth; lia
      | now rewrite As | ].
    exists sk. repeat split; try assumption.
    + lia.
    + rewrite Kl, Al, !tones_app, tones_flat_map_ticks, !length_app, length_map,
        columns_length. cbn [tones length]. lia.
Qed.

Lemma C3_witness :
  exists st',
    transmitSegment 640 (RedDifference 0 1) (initialState (fun _ => 0)) = Some (tt, st') /\
    ticks st' = 640 /\ rowFinished st' = true /\ timer_fire st' = None.
Proof.
  destruct (C3_segment_runs_640_ticks 640 (RedDifference 0 1) (initialState (fun _ => 0)))
    as (st' & E & _ & T & _ & _ & R & F & _).
  - cbn [rowsInRange]. unfold imageHeight. lia.
  - lia.
  - exists st'. split; [ exact E | split; [ exact T | split; [ exact R | exact F ] ] ].
Defined.

(** C1: a full PD120 transmission returns and its output is, for the pair
    indices 0, 1, ..., 247 in increasing order, the concatenation of: sync
    tone 1200 Hz held 20000 us, porch tone 1500 Hz held 2080 us, then the
    segments Luminance(2k), RedDifference(2k, 2k+1), BlueDifference(2k, 2k+1),
    Luminance(2k+1), each from its timer start through its 640 columns to its
    timer stop; the tone generator is stopped at the end. *)
Theorem C1_line_pairs_in_order (fuel : nat) (st : state) :
  (640 <= fuel)%nat ->
  exists st',
    transmitPD120Image_HW fuel st = Some (tt, st') /\
    log st' = log st
              ++ flat_map (linePairEvents (canvas st)) (columns 0 248)
              ++ [EvLedcStop] /\
    length (columns 0 248) = 248%nat /\
    (forall k, (k < 248)%nat -> nth k (columns 0 248) 0 = Z.of_nat k) /\
    (forall k,
        linePairEvents (canvas st) k
        = [EvTone 1200; EvDelay 20000; EvTone 1500; EvDelay 2080]
            ++ segmentEvents (canvas st) (Luminance (2 * k))
            ++ segmentEvents (canvas st) (RedDifference (2 * k) (2 * k + 1))
            ++ segmentEvents (canvas st) (BlueDifference (2 * k) (2 * k + 1))
            ++ segmentEvents (canvas st) (Luminance (2 * k + 1))) /\
    (forall sg,
        segmentEvents (canvas st) sg
        = EvTimerStart 190
            :: flat_map (tickEvents (canvas st) sg) (columns 0 640) ++ [EvTimerStop]).
Proof.
  intros Hfuel.
  destruct (transmitPD120Image_HW_ok fuel st Hfuel) as (st' & E & _ & _ & L).
  exists st'. split; [ exact E | ]. split.
  - rewrite L. reflexivity.
  - split; [ apply columns_length | ].
    split; [ intros k Hk; rewrite columns_nth by assumption; lia | ].
    split; intros; reflexivity.
Qed.

Lemma C1_witness :
  exists st',
    transmitPD120Image_HW 640 (initialState (fun _ => 0)) = Some (tt, st') /\
    log st' = flat_map (linePairEvents (fun _ => 0)) (columns 0 248) ++ [EvLedcStop].
Proof.
  destruct (C1_line_pairs_in_order 640 (initialState (fun _ => 0)))
    as (st' & E & L & _); [ lia | ].
  exists st'. split; [ exact E | exact L ].
Defined.

Lemma pulses_pulseEvents (l : list (Z * Z)) : pulses (pulseEvents l) = l.
Proof.
  induction l as [ | [f d] l IH]; [ reflexivity | ].
  cbn [pulseEvents flat_map app fst snd pulses]. fold (pulseEvents l). now rewrite IH.
Qed.

Lemma transmitCalibrationHeader_ok (st : state) :
  exists st',
    transmitCalibrationHeader st = Some (tt, st') /\
    canvas st' = canvas st /\ ticks st' = ticks st /\
    log st' = log st ++ pulseEvents (headerPulses 95).
Proof.
  eexists. split; [ reflexivity | ].
  cbn [canvas ticks log emit]. rewrite <- !app_assoc.
  repeat split; reflexivity.
Qed.

(** C2 (amended): every call of [transmitCalibrationHeader] emits the same
    13 pulses whatever the canvas holds: 1900 Hz/300000 us, 1200 Hz/10000 us,
    1900 Hz/300000 us, 1200 Hz/30000 us, the seven bits 1,1,1,1,1,0,1 of VIS
    code 95 at 1100/1300 Hz of 30000 us each, the even-parity pulse at
    1300 Hz of 30000 us, and the 1200 Hz/30000 us stop pulse. *)
Theorem C2_header_is_13_constant_pulses (st : state) :
  exists st',
    transmitCalibrationHeader st = Some (tt, st') /\
    log st' = log st ++ pulseEvents (headerPulses 95) /\
    headerPulses 95
    = [(1900, 300000); (1200, 10000); (1900, 300000); (1200, 30000);
       (1100, 30000); (1100, 30000); (1100, 30000); (1100, 30000);
       (1100, 30000); (1300, 30000); (1100, 30000);
       (1300, 30000); (1200, 30000)] /\
    length (headerPulses 95) = 13%nat /\
    visBits 95 = [true; true; true; true; true; false; true] /\
    evenParity (visBits 95) = false.
Proof.
  destruct (transmitCalibrationHeader_ok st) as (st' & E & _ & _ & L).
  exists st'. repeat split; assumption.
Qed.

(** C2 (as stated) fails: the parity pulse does not last 1300 us. *)
Lemma C2_parity_pulse_not_1300_micros :
  ~ (exists st',
        transmitCalibrationHeader (initialState (fun _ => 0)) = Some (tt, st') /\
        pulses (log st') = headerPulsesShortParity 95).
Proof.
  intros (st' & E & P).
  destruct (transmitCalibrationHeader_ok (initialState (fun _ => 0)))
    as (s & E' & _ & _ & L).
  rewrite E' in E. injection E as <-.
  rewrite L in P. cbn [initialState log app] in P.
  rewrite pulses_pulseEvents in P. discriminate P.
Qed.

Local Open Scope Q_scope.

Lemma integer_mapping_check :
  forall_below 256
    (fun v =>
       match mapYToFrequency (inject_Z v), mapDiffToFrequency (inject_Z (v - 128)) with
       | Some f, Some g => (f =? 1500 + v * 800 / 255)%Z && (g =? 1500 + v * 800 / 255)%Z
       | _, _ => false
       end) = true.
Proof. vm_compute. reflexivity. Qed.


Lemma uint32_of_double_some (x : Q) (t : Z) :
  uint32_of_double x = Some t -> t = Qtrunc x.
Proof.
  unfold uint32_of_double.
  destruct ((0 <=? Qtrunc x)%Z && (Qtrunc x <? 2 ^ 32)%Z); congruence.
Qed.

Lemma mapYToFrequency_value (Y : Q) :
  0 <= Y <= 255 ->
  mapYToFrequency Y = Some (1500 + Qtrunc (lumaCastArg Y))%Z /\
  (0 <= Qtrunc (lumaCastArg Y) <= 800)%Z.
Proof.
  intros [H0 H255].
  destruct (uint32_of_double_between (lumaCastArg 0) (lumaCastArg 255)
              (lumaCastArg Y) 0 800) as (t & Et & Ht);
    [ vm_compute; reflexivity | vm_compute; reflexivity
    | now apply lumaCastArg_le | now apply lumaCastArg_le | ].
  pose proof (uint32_of_double_some _ _ Et) as ->.
  split; [ | exact Ht ].
  unfold mapYToFrequency. fold (lumaCastArg Y). rewrite Et.
  now rewrite u32_small by lia.
Qed.

Lemma mapDiffToFrequency_value (D : Q) :
  - (128) <= D <= 127 ->
  mapDiffToFrequency D = Some (1500 + Qtrunc (diffCastArg D))%Z /\
  (0 <= Qtrunc (diffCastArg D) <= 800)%Z.
Proof.
  intros [Hlo Hhi].
  destruct (uint32_of_double_between (diffCastArg (- (128))) (diffCastArg 127)
              (diffCastArg D) 0 800) as (t & Et & Ht);
    [ vm_compute; reflexivity | vm_compute; reflexivity
    | now apply diffCastArg_le | now apply diffCastArg_le | ].
  pose proof (uint32_of_double_some _ _ Et) as ->.
  split; [ | exact Ht ].
  unfold mapDiffToFrequency. fold (diffCastArg D). rewrite Et.
  now rewrite u32_small by lia.
Qed.

(** C6: [mapYToFrequency] sends 0 to 1500 and 255 to 2300 and is monotonic
    non-decreasing on [0,255]; [mapDiffToFrequency] sends -128 to 1500 and
    127 to 2300 and is monotonic non-decreasing on [-128,127]. *)
Theorem C6_endpoints_and_monotonicity :
  mapYToFrequency 0 = Some 1500%Z /\
  mapYToFrequency 255 = Some 2300%Z /\
  mapDiffToFrequency (- (128)) = Some 1500%Z /\
  mapDiffToFrequency 127 = Some 2300%Z /\
  (forall Y1 Y2, 0 <= Y1 -> Y1 <= Y2 -> Y2 <= 255 ->
     exists f1 f2,
       mapYToFrequency Y1 = Some f1 /\ mapYToFrequency Y2 = Some f2 /\ (f1 <= f2)%Z) /\
  (forall D1 D2, - (128) <= D1 -> D1 <= D2 -> D2 <= 127 ->
     exists f1 f2,
       mapDiffToFrequency D1 = Some f1 /\ mapDiffToFrequency D2 = Some f2 /\
       (f1 <= f2)%Z).
Proof.
  split; [ vm_compute; reflexivity | ].
  split; [ vm_compute; reflexivity | ].
  split; [ vm_compute; reflexivity | ].
  split; [ vm_compute; reflexivity | ].
  split.
  - intros Y1 Y2 H0 H12 H255.
    destruct (mapYToFrequency_value Y1) as [E1 _]; [ split; lra | ].
    destruct (mapYToFrequency_value Y2) as [E2 _]; [ split; lra | ].
    exists (1500 + Qtrunc (lumaCastArg Y1))%Z, (1500 + Qtrunc (lumaCastArg Y2))%Z.
    split; [ exact E1 | split; [ exact E2 | ] ].
    pose proof (Qtrunc_le _ _ (lumaCastArg_le _ _ H12)). lia.
  - intros D1 D2 Hlo H12 Hhi.
    destruct (mapDiffToFrequency_value D1) as [E1 _]; [ split; lra | ].
    destruct (mapDiffToFrequency_value D2) as [E2 _]; [ split; lra | ].
    exists (1500 + Qtrunc (diffCastArg D1))%Z, (1500 + Qtrunc (diffCastArg D2))%Z.
    split; [ exact E1 | split; [ exact E2 | ] ].
    pose proof (Qtrunc_le _ _ (diffCastArg_le _ _ H12)). lia.
Qed.

Lemma C6_witness :
  exists f1 f2,
    mapYToFrequency (1 # 3) = Some f1 /\ mapYToFrequency (401 # 2) = Some f2 /\
    (f1 <= f2)%Z.
Proof.
  apply (proj1 (proj2 (proj2 (proj2 (proj2 C6_endpoints_and_monotonicity)))));
    unfold Qle; cbn; lia.
Defined.

(** C8: for a gray triple R = G = B = c, [convertToSSTV] yields Y = c,
    R-Y = 0 and B-Y = 0 (in the float arithmetic of the code), and for every
    RGB8 triple the luminance is at most max(R, G, B). *)
Theorem C8_gray_and_luma_bound (c R G B : Z) :
  (0 <= c <= 255)%Z ->
  (0 <= R <= 255)%Z -> (0 <= G <= 255)%Z -> (0 <= B <= 255)%Z ->
  (let '(Y, RY, BY) := convertToSSTV c c c in
   Y == inject_Z c /\ RY == 0 /\ BY == 0) /\
  luma R G B <= inject_Z (Z.max R (Z.max G B)).
Proof.
  intros Hc HR HG HB. split.
  - pose proof (forall_below_spec _ _ luma_gray_check c ltac:(lia)) as E.
    cbv beta in E. rewrite !andb_true_iff in E. destruct E as [[E1 E2] E3].
    apply Qeq_bool_iff in E1, E2, E3.
    unfold luma, redDiff, blueDiff in E1, E2, E3.
    destruct (convertToSSTV c c c) as [[Y RY] BY]. cbn [fst snd] in *.
    split; [ exact E1 | split; [ exact E2 | exact E3 ] ].
  - set (m := Z.max R (Z.max G B)).
    apply Qle_trans with (luma m m m).
    + apply luma_le; lia.
    + rewrite luma_gray by lia. apply Qle_refl.
Qed.

Lemma C8_witness :
  (let '(Y, RY, BY) := convertToSSTV 200 200 200 in
   Y == inject_Z 200 /\ RY == 0 /\ BY == 0) /\
  luma 10 250 30 <= inject_Z (Z.max 10 (Z.max 250 30)).
Proof. apply (C8_gray_and_luma_bound 200 10 250 30); lia. Defined.

Lemma mapDiffToFrequency_castArg (d : Q) :
  mapDiffToFrequency d
  = match uint32_of_double (diffCastArg d) with
    | Some t => Some (u32 (1500 + t))
    | None => None
    end.
Proof. reflexivity. Qed.

(** C10: for every pair of RGB8 pixels the averaged R-Y and B-Y values lie
    strictly between -128 and 128, the operand of the [(uint32_t)] cast in
    [mapDiffToFrequency] is nonnegative, and the conversion is defined. *)
Theorem C10_average_difference_in_range (R1 G1 B1 R2 G2 B2 : Z) :
  (0 <= R1 <= 255)%Z -> (0 <= G1 <= 255)%Z -> (0 <= B1 <= 255)%Z ->
  (0 <= R2 <= 255)%Z -> (0 <= G2 <= 255)%Z -> (0 <= B2 <= 255)%Z ->
  let avgRY := averageDiff (redDiff R1 G1 B1) (redDiff R2 G2 B2) in
  let avgBY := averageDiff (blueDiff R1 G1 B1) (blueDiff R2 G2 B2) in
  (- (128) < avgRY /\ avgRY < 128) /\ (- (128) < avgBY /\ avgBY < 128) /\
  0 <= diffCastArg avgRY /\ 0 <= diffCastArg avgBY /\
  (exists f, mapDiffToFrequency avgRY = Some f) /\
  (exists f, mapDiffToFrequency avgBY = Some f).
Proof.
  intros HR1 HG1 HB1 HR2 HG2 HB2 avgRY avgBY.
  assert (HRY : - (255 # 2) <= avgRY <= 255 # 2)
    by (apply averageDiff_range; now apply redDiff_range).
  assert (HBY : - (255 # 2) <= avgBY <= 255 # 2)
    by (apply averageDiff_range; now apply blueDiff_range).
  assert (Hlow : 0 <= diffCastArg (- (255 # 2))) by (vm_compute; discriminate).
  split; [ split; lra | ]. split; [ split; lra | ].
  split; [ apply Qle_trans with (diffCastArg (- (255 # 2)));
           [ exact Hlow | apply diffCastArg_le; lra ] | ].
  split; [ apply Qle_trans with (diffCastArg (- (255 # 2)));
           [ exact Hlow | apply diffCastArg_le; lra ] | ].
  split.
  - destruct (mapDiffToFrequency_range avgRY HRY) as (f & E & _). now exists f.
  - destruct (mapDiffToFrequency_range avgBY HBY) as (f & E & _). now exists f.
Qed.

Lemma C10_witness :
  let avgRY := averageDiff (redDiff 255 0 0) (redDiff 0 255 255) in
  let avgBY := averageDiff (blueDiff 255 0 0) (blueDiff 0 255 255) in
  (- (128) < avgRY /\ avgRY < 128) /\ (- (128) < avgBY /\ avgBY < 128) /\
  0 <= diffCastArg avgRY /\ 0 <= diffCastArg avgBY /\
  (exists f, mapDiffToFrequency avgRY = Some f) /\
  (exists f, mapDiffToFrequency avgBY = Some f).
Proof. apply (C10_average_difference_in_range 255 0 0 0 255 255); lia. Defined.

Local Open Scope Z_scope.

Lemma tickTone_white (cv : Z -> Z) (sg : segment) (x : Z) :
  whiteSurface cv ->
  tickTone cv sg x
  = Some (match sg with Luminance _ => 2300 | _ => 1901 end).
Proof.
  intros H. destruct sg as [row | o e | o e]; unfold tickTone, sampleRGB8;
    rewrite !H; vm_compute; reflexivity.
Qed.

(** C7: over a surface filled with the packed value 0xFFFF (RGB8
    (255,255,255)), every luminance-segment tick emits 2300 Hz and every
    difference-segment tick emits 1901 Hz. *)
Theorem C7_white_surface_tones (st : state) :
  whiteSurface (canvas st) ->
  0 <= pixelCounter st < imageWidth -> rowsInRange (segmentOf st) ->
  unpackRGB565 0xFFFF = (255, 255, 255) /\
  exists st',
    pixelTimerCallback st = Some (tt, st') /\
    tones (log st')
    = tones (log st)
        ++ [match currentSegment st with SEG_Y => 2300 | _ => 1901 end].
Proof.
  intros Hw Hx Hrows. split; [ reflexivity | ].
  destruct (pixelTimerCallback_ok st Hx Hrows) as (st' & E & P).
  exists st'. split; [ exact E | ].
  unfold tickPost in P. destruct P as (_ & _ & _ & _ & _ & _ & _ & P).
  assert (F : tickFreq (canvas st) (segmentOf st) (pixelCounter st)
              = match currentSegment st with SEG_Y => 2300 | _ => 1901 end).
  { unfold tickFreq. rewrite (tickTone_white _ _ _ Hw).
    unfold segmentOf. destruct (currentSegment st); reflexivity. }
  destruct (imageWidth <=? pixelCounter st + 1); destruct P as (_ & _ & L);
    rewrite L, !tones_app, tones_tickEvents, F; cbn [tones];
    rewrite ?app_nil_r; reflexivity.
Qed.

Lemma C7_witness :
  exists st',
    pixelTimerCallback (armSegment (BlueDifference 4 5) (initialState (fun _ => 0xFFFF)))
    = Some (tt, st') /\
    tones (log st') = [1901].
Proof.
  destruct (C7_white_surface_tones
              (armSegment (BlueDifference 4 5) (initialState (fun _ => 0xFFFF))))
    as (_ & st' & E & T).
  - intros i. reflexivity.
  - cbn. unfold imageWidth. lia.
  - cbn. unfold imageHeight. lia.
  - exists st'. split; [ exact E | exact T ].
Defined.

(** The tone written for a saturated red pixel pair in a red-difference
    segment, and for a saturated blue pair in a blue-difference segment, is
    2301 Hz. *)
Lemma saturated_surface_tone_2301 :
  tickTone (fun _ => 0xF800) (RedDifference 0 1) 0 = Some 2301 /\
  tickTone (fun _ => 0x001F) (BlueDifference 0 1) 0 = Some 2301 /\
  exists st',
    pixelTimerCallback (armSegment (RedDifference 0 1) (initialState (fun _ => 0xF800)))
    = Some (tt, st') /\
    log st' = [EvTimerStart 190; EvRead 0 0; EvRead 0 1; EvTone 2301].
Proof.
  assert (T1 : tickTone (fun _ => 0xF800) (RedDifference 0 1) 0 = Some 2301)
    by (vm_compute; reflexivity).
  split; [ exact T1 | ]. split; [ vm_compute; reflexivity | ].
  destruct (pixelTimerCallback_ok
              (armSegment (RedDifference 0 1) (initialState (fun _ => 0xF800))))
    as (st' & E & P);
    [ cbn; unfold imageWidth; lia | cbn; unfold imageHeight; lia | ].
  exists st'. split; [ exact E | ].
  unfold tickPost in P. destruct P as (_ & _ & _ & _ & _ & _ & _ & P).
  cbn [armSegment initialState pixelCounter emit set_timerActive set_rowFinished
       set_pixelCounter set_currentRowEven set_currentRowOdd set_currentSegment
       canvas log segmentOf currentSegment currentRowOdd currentRowEven rowFinished
       currentRow timerActive ticks] in P.
  change (imageWidth <=? 0 + 1) with false in P. cbv iota in P.
  destruct P as (_ & _ & L). rewrite L.
  unfold tickEvents, tickFreq. rewrite T1. reflexivity.
Qed.

Lemma reads_In (l : list event) (x y : Z) :
  In (x, y) (reads l) <-> In (EvRead x y) l.
Proof.
  induction l as [ | e l IH]; [ reflexivity | ].
  destruct e; cbn [reads In]; rewrite IH;
    (split; [ intros [H | H]; [ left; congruence | right; exact H ]
            | intros [H | H]; [ left; congruence | right; exact H ] ])
    || (split; [ intros H; right; exact H | intros [H | H]; [ discriminate | exact H ] ]).
Qed.

Lemma segmentEvents_reads (cv : Z -> Z) (sg : segment) (x y : Z) :
  rowsInRange sg -> In (EvRead x y) (segmentEvents cv sg) -> readInBounds (x, y).
Proof.
  intros Hrows H. unfold segmentEvents in H.
  destruct H as [H | H]; [ discriminate | ].
  apply in_app_or in H. destruct H as [H | [H | []]]; [ | discriminate ].
  apply in_flat_map in H. destruct H as (c & Hc & H).
  apply columns_In in Hc.
  unfold tickEvents in H. apply in_app_or in H.
  destruct H as [H | [H | []]]; [ | discriminate ].
  unfold readInBounds, imageWidth. unfold imageHeight in Hrows.
  destruct sg as [row | o e | o e]; cbn [tickReads In rowsInRange] in *;
    repeat match goal with
           | H : _ \/ _ |- _ => destruct H
           | H : EvRead _ _ = EvRead _ _ |- _ => injection H as <- <-
           | H : False |- _ => destruct H
           end; unfold imageHeight in *; lia.
Qed.

Lemma imageEvents_reads (cv : Z -> Z) :
  Forall readInBounds (reads (imageEvents cv)).
Proof.
  apply Forall_forall. intros [x y] H. apply reads_In in H.
  unfold imageEvents in H. apply in_app_or in H.
  destruct H as [H | [H | []]]; [ | discriminate ].
  apply in_flat_map in H. destruct H as (k & Hk & H).
  apply columns_In in Hk. unfold linePairEvents in H.
  repeat (apply in_app_or in H; destruct H as [H | H]).
  - cbn [In] in H. repeat (destruct H as [H | H]; [ discriminate | ]). destruct H.
  - apply (segmentEvents_reads cv _ x y) in H; [ exact H | ].
    cbn [rowsInRange]. unfold imageHeight. lia.
  - apply (segmentEvents_reads cv _ x y) in H; [ exact H | ].
    cbn [rowsInRange]. unfold imageHeight. lia.
  - apply (segmentEvents_reads cv _ x y) in H; [ exact H | ].
    cbn [rowsInRange]. unfold imageHeight. lia.
  - apply (segmentEvents_reads cv _ x y) in H; [ exact H | ].
    cbn [rowsInRange]. unfold imageHeight. lia.
Qed.

Lemma reads_flat_map_length {A} (f : A -> list event) (n : nat) (l : list A) :
  (forall a, length (reads (f a)) = n) ->
  length (reads (flat_map f l)) = (length l * n)%nat.
Proof.
  intros H. induction l as [ | a l IH]; [ reflexivity | ].
  cbn [flat_map length]. rewrite reads_app, length_app, IH, H. lia.
Qed.

Lemma segmentEvents_reads_length (cv : Z -> Z) (sg : segment) :
  length (reads (segmentEvents cv sg))
  = match sg with Luminance _ => 640%nat | _ => 1280%nat end.
Proof.
  unfold segmentEvents. cbn [reads]. rewrite reads_app. cbn [reads].
  rewrite length_app, (reads_flat_map_length _ (match sg with Luminance _ => 1 | _ => 2 end)%nat).
  - rewrite columns_length. destruct sg; reflexivity.
  - intros x. destruct sg; reflexivity.
Qed.

Lemma imageEvents_reads_length (cv : Z -> Z) :
  length (reads (imageEvents cv)) = (248 * (640 + 1280 + 1280 + 640))%nat.
Proof.
  unfold imageEvents. rewrite reads_app. cbn [reads].
  rewrite length_app, (reads_flat_map_length _ (640 + 1280 + 1280 + 640)%nat).
  - rewrite columns_length. cbn [length]. lia.
  - intros k. unfold linePairEvents. cbn [app reads].
    rewrite !reads_app, !length_app, !segmentEvents_reads_length. reflexivity.
Qed.

(** C9: a full transmission never reads outside the canvas: it returns
    (a read outside the buffer would abort it) and every one of its reads
    (x, y) has 0 <= x < 640, 0 <= y < 496 and a buffer index
    y * imageWidth + x inside the 640 * 496 cells. *)
Theorem C9_canvas_reads_in_bounds (fuel : nat) (st : state) :
  (640 <= fuel)%nat ->
  exists st' l,
    transmitPD120Image_HW fuel st = Some (tt, st') /\
    log st' = log st ++ l /\
    Forall readInBounds (reads l) /\
    length (reads l) = (248 * (640 + 1280 + 1280 + 640))%nat.
Proof.
  intros Hfuel.
  destruct (transmitPD120Image_HW_ok fuel st Hfuel) as (st' & E & _ & _ & L).
  exists st', (imageEvents (canvas st)).
  split; [ exact E | ]. split; [ exact L | ].
  split; [ apply imageEvents_reads | apply imageEvents_reads_length ].
Qed.

Lemma C9_witness :
  exists st' l,
    transmitPD120Image_HW 640 (initialState (fun _ => 0)) = Some (tt, st') /\
    log st' = l /\ Forall readInBounds (reads l).
Proof.
  destruct (C9_canvas_reads_in_bounds 640 (initialState (fun _ => 0)))
    as (st' & l & E & L & F & _); [ lia | ].
  exists st', l. split; [ exact E | split; [ exact L | exact F ] ].
Defined.

(** * Further properties of the code *)

(** ** Tones of the picture *)

Local Open Scope Q_scope.

Lemma Qtrunc_eq (x y : Q) : x == y -> Qtrunc x = Qtrunc y.
Proof.
  intros E. apply Z.le_antisymm; apply Qtrunc_le; rewrite E; apply Qle_refl.
Qed.

Lemma uint32_of_double_eq (x y : Q) : x == y -> uint32_of_double x = uint32_of_double y.
Proof. intros E. unfold uint32_of_double. now rewrite (Qtrunc_eq x y E). Qed.

Lemma diffCastArg_eq (x y : Q) : x == y -> diffCastArg x == diffCastArg y.
Proof.
  intros E. apply Qle_antisym; apply diffCastArg_le; rewrite E; apply Qle_refl.
Qed.

Lemma lumaCastArg_eq (x y : Q) : x == y -> lumaCastArg x == lumaCastArg y.
Proof.
  intros E. apply Qle_antisym; apply lumaCastArg_le; rewrite E; apply Qle_refl.
Qed.

Lemma mapDiffToFrequency_eq (x y : Q) :
  x == y -> mapDiffToFrequency x = mapDiffToFrequency y.
Proof.
  intros E. rewrite !mapDiffToFrequency_castArg.
  now rewrite (uint32_of_double_eq _ _ (diffCastArg_eq x y E)).
Qed.

Lemma mapYToFrequency_castArg (Y : Q) :
  mapYToFrequency Y
  = match uint32_of_double (lumaCastArg Y) with
    | Some t => Some (u32 (1500 + t))
    | None => None
    end.
Proof. reflexivity. Qed.

Lemma mapYToFrequency_eq (x y : Q) :
  x == y -> mapYToFrequency x = mapYToFrequency y.
Proof.
  intros E. rewrite !mapYToFrequency_castArg.
  now rewrite (uint32_of_double_eq _ _ (lumaCastArg_eq x y E)).
Qed.

Lemma averageDiff_eq (a a' b b' : Q) :
  a == a' -> b == b' -> averageDiff a b == averageDiff a' b'.
Proof.
  intros Ea Eb. apply Qle_antisym; apply averageDiff_le;
    rewrite ?Ea, ?Eb; apply Qle_refl.
Qed.

Lemma averageDiff_comm (a b : Q) : averageDiff a b == averageDiff b a.
Proof.
  unfold averageDiff, float_of_double, ddiv, double_of_float, fadd.
  apply binary32_eq, binary64_eq.
  apply Qmult_comp; [ | reflexivity ]. apply binary32_eq. apply Qplus_comm.
Qed.

(** X1: whatever the canvas holds, an evaluation of the timer callback at
    a column and rows of the surface writes exactly one tone, between 1500
    and 2300 Hz in a luminance segment and between 1501 and 2301 Hz in a
    difference segment. *)
Theorem picture_tone_band (st : state) :
  (0 <= pixelCounter st < imageWidth)%Z -> rowsInRange (segmentOf st) ->
  exists st' f,
    pixelTimerCallback st = Some (tt, st') /\
    tones (log st') = tones (log st) ++ [f] /\
    match currentSegment st with
    | SEG_Y => (1500 <= f <= 2300)%Z
    | SEG_RY | SEG_BY => (1501 <= f <= 2301)%Z
    end.
Proof.
  intros Hx Hrows.
  destruct (pixelTimerCallback_ok st Hx Hrows) as (st' & E & P).
  exists st', (tickFreq (canvas st) (segmentOf st) (pixelCounter st)).
  split; [ exact E | ]. split.
  - unfold tickPost in P. destruct P as (_ & _ & _ & _ & _ & _ & _ & P).
    destruct (imageWidth <=? pixelCounter st + 1)%Z; destruct P as (_ & _ & L);
      rewrite L, !tones_app, tones_tickEvents; cbn [tones];
      rewrite ?app_nil_r; reflexivity.
  - unfold tickFreq, segmentOf, tickTone, sampleRGB8.
    destruct (currentSegment st).
    + pose proof (unpackRGB565_range
                    (canvas st (currentRow st * imageWidth + pixelCounter st)%Z)) as H.
      destruct (unpackRGB565 _) as [[R G] B]. destruct H as (HR & HG & HB).
      destruct (mapYToFrequency_range (luma R G B)) as (f & Ef & Hf);
        [ now apply luma_range | ].
      now rewrite Ef.
    + pose proof (unpackRGB565_range
                    (canvas st (currentRowOdd st * imageWidth + pixelCounter st)%Z)) as H1.
      pose proof (unpackRGB565_range
                    (canvas st (currentRowEven st * imageWidth + pixelCounter st)%Z)) as H2.
      destruct (unpackRGB565 (canvas st (currentRowOdd st * imageWidth + pixelCounter st)%Z))
        as [[R1 G1] B1].
      destruct (unpackRGB565 (canvas st (currentRowEven st * imageWidth + pixelCounter st)%Z))
        as [[R2 G2] B2].
      destruct H1 as (? & ? & ?), H2 as (? & ? & ?).
      destruct (mapDiffToFrequency_range
                  (averageDiff (redDiff R1 G1 B1) (redDiff R2 G2 B2)))
        as (f & Ef & Hf);
        [ apply averageDiff_range; now apply redDiff_range | ].
      now rewrite Ef.
    + pose proof (unpackRGB565_range
                    (canvas st (currentRowOdd st * imageWidth + pixelCounter st)%Z)) as H1.
      pose proof (unpackRGB565_range
                    (canvas st (currentRowEven st * imageWidth + pixelCounter st)%Z)) as H2.
      destruct (unpackRGB565 (canvas st (currentRowOdd st * imageWidth + pixelCounter st)%Z))
        as [[R1 G1] B1].
      destruct (unpackRGB565 (canvas st (currentRowEven st * imageWidth + pixelCounter st)%Z))
        as [[R2 G2] B2].
      destruct H1 as (? & ? & ?), H2 as (? & ? & ?).
      destruct (mapDiffToFrequency_range
                  (averageDiff (blueDiff R1 G1 B1) (blueDiff R2 G2 B2)))
        as (f & Ef & Hf);
        [ apply averageDiff_range; now apply blueDiff_range | ].
      now rewrite Ef.
Qed.

Lemma picture_tone_band_witness :
  exists st' f,
    pixelTimerCallback (armSegment (Luminance 7) (initialState (fun i => i)))
    = Some (tt, st') /\
    tones (log st') = [f] /\ (1500 <= f <= 2300)%Z.
Proof.
  destruct (picture_tone_band (armSegment (Luminance 7) (initialState (fun i => i))))
    as (st' & f & E & T & B).
  - cbn. unfold imageWidth. lia.
  - cbn. unfold imageHeight. lia.
  - exists st', f. split; [ exact E | split; [ exact T | exact B ] ].
Defined.

(** X2: for every RGB8 triple [convertToSSTV] yields a luminance in
    [0, 255] and colour differences in [-127.5, 127.5]. *)
Theorem convertToSSTV_ranges (R G B : Z) :
  (0 <= R <= 255)%Z -> (0 <= G <= 255)%Z -> (0 <= B <= 255)%Z ->
  let '(Y, RY, BY) := convertToSSTV R G B in
  0 <= Y <= 255 /\ - (255 # 2) <= RY <= 255 # 2 /\ - (255 # 2) <= BY <= 255 # 2.
Proof.
  intros HR HG HB.
  pose proof (luma_range R G B HR HG HB) as H1.
  pose proof (redDiff_range R G B HR HG HB) as H2.
  pose proof (blueDiff_range R G B HR HG HB) as H3.
  unfold luma, redDiff, blueDiff in H1, H2, H3.
  destruct (convertToSSTV R G B) as [[Y RY] BY]. cbn [fst snd] in *.
  split; [ exact H1 | split; [ exact H2 | exact H3 ] ].
Qed.

Lemma convertToSSTV_ranges_witness :
  let '(Y, RY, BY) := convertToSSTV 12 200 99 in
  0 <= Y <= 255 /\ - (255 # 2) <= RY <= 255 # 2 /\ - (255 # 2) <= BY <= 255 # 2.
Proof. apply (convertToSSTV_ranges 12 200 99); lia. Defined.

(** X3: raising any of the three channels of a pixel never lowers its
    luminance tone. *)
Theorem luminance_tone_monotone (R G B R' G' B' : Z) :
  (0 <= R <= R')%Z -> (R' <= 255)%Z ->
  (0 <= G <= G')%Z -> (G' <= 255)%Z ->
  (0 <= B <= B')%Z -> (B' <= 255)%Z ->
  exists f f',
    mapYToFrequency (luma R G B) = Some f /\
    mapYToFrequency (luma R' G' B') = Some f' /\
    (f <= f')%Z.
Proof.
  intros HR HR' HG HG' HB HB'.
  destruct (mapYToFrequency_value (luma R G B)) as [E1 _];
    [ apply luma_range; lia | ].
  destruct (mapYToFrequency_value (luma R' G' B')) as [E2 _];
    [ apply luma_range; lia | ].
  eexists. eexists. split; [ exact E1 | split; [ exact E2 | ] ].
  assert (L : luma R G B <= luma R' G' B') by (apply luma_le; lia).
  pose proof (Qtrunc_le _ _ (lumaCastArg_le _ _ L)). lia.
Qed.

Lemma luminance_tone_monotone_witness :
  exists f f',
    mapYToFrequency (luma 10 20 30) = Some f /\
    mapYToFrequency (luma 10 250 30) = Some f' /\
    (f <= f')%Z.
Proof. apply (luminance_tone_monotone 10 20 30 10 250 30); lia. Defined.

Lemma redDiff_gray (c : Z) : (0 <= c <= 255)%Z -> redDiff c c c == 0.
Proof.
  intros H. pose proof (forall_below_spec _ _ luma_gray_check c ltac:(lia)) as E.
  cbv beta in E. rewrite !andb_true_iff in E. destruct E as [[_ E] _].
  now apply Qeq_bool_iff.
Qed.

Lemma blueDiff_gray (c : Z) : (0 <= c <= 255)%Z -> blueDiff c c c == 0.
Proof.
  intros H. pose proof (forall_below_spec _ _ luma_gray_check c ltac:(lia)) as E.
  cbv beta in E. rewrite !andb_true_iff in E. destruct E as [_ E].
  now apply Qeq_bool_iff.
Qed.

Lemma mapYToFrequency_integer (Y : Z) :
  (0 <= Y <= 255)%Z ->
  mapYToFrequency (inject_Z Y) = Some (1500 + Y * 800 / 255)%Z.
Proof.
  intros HY.
  pose proof (forall_below_spec _ _ integer_mapping_check Y ltac:(lia)) as E.
  cbv beta in E.
  destruct (mapYToFrequency (inject_Z Y)) as [f | ]; [ | discriminate E ].
  destruct (mapDiffToFrequency (inject_Z (Y - 128))) as [g | ]; [ | discriminate E ].
  apply andb_true_iff in E. destruct E as [E _]. apply Z.eqb_eq in E. now subst f.
Qed.

(** X4: where the two pixels of a column decode to gray triples, both
    difference segments send 1901 Hz and the luminance segment sends
    1500 + floor(c * 800 / 255) for the gray level c. *)
Theorem gray_columns_tones (cv : Z -> Z) (x o e c1 c2 : Z) :
  (0 <= c1 <= 255)%Z -> (0 <= c2 <= 255)%Z ->
  sampleRGB8 cv x o = (c1, c1, c1) -> sampleRGB8 cv x e = (c2, c2, c2) ->
  tickTone cv (RedDifference o e) x = Some 1901%Z /\
  tickTone cv (BlueDifference o e) x = Some 1901%Z /\
  tickTone cv (Luminance o) x = Some (1500 + c1 * 800 / 255)%Z.
Proof.
  intros H1 H2 S1 S2. unfold tickTone. rewrite S1, S2.
  split; [ | split ].
  - rewrite (mapDiffToFrequency_eq _ (averageDiff 0 0)).
    + vm_compute. reflexivity.
    + apply averageDiff_eq; now apply redDiff_gray.
  - rewrite (mapDiffToFrequency_eq _ (averageDiff 0 0)).
    + vm_compute. reflexivity.
    + apply averageDiff_eq; now apply blueDiff_gray.
  - rewrite (mapYToFrequency_eq _ (inject_Z c1)) by now apply luma_gray.
    now apply mapYToFrequency_integer.
Qed.

Lemma gray_columns_tones_witness :
  tickTone (fun _ => 0x1082%Z) (RedDifference 2 3) 5 = Some 1901%Z /\
  tickTone (fun _ => 0x1082%Z) (BlueDifference 2 3) 5 = Some 1901%Z /\
  tickTone (fun _ => 0x1082%Z) (Luminance 2) 5 = Some (1500 + 16 * 800 / 255)%Z.
Proof.
  apply (gray_columns_tones (fun _ => 0x1082%Z) 5 2 3 16 16);
    [ lia | lia | reflexivity | reflexivity ].
Defined.

(** X5: the difference tones of a column do not change when the odd and
    the even row are exchanged. *)
Theorem difference_tone_symmetric (cv : Z -> Z) (x o e : Z) :
  tickTone cv (RedDifference o e) x = tickTone cv (RedDifference e o) x /\
  tickTone cv (BlueDifference o e) x = tickTone cv (BlueDifference e o) x.
Proof.
  unfold tickTone.
  destruct (sampleRGB8 cv x o) as [[R1 G1] B1], (sampleRGB8 cv x e) as [[R2 G2] B2].
  split; apply mapDiffToFrequency_eq, averageDiff_comm.
Qed.

(** X6: neither mapping clamps.  A luminance of at most -1 or a
    difference of at most -129 makes the conversion to [uint32_t] undefined;
    a luminance from 256 or a difference from 128 (up to 10^9) gives a
    frequency of at least 2303 Hz. *)
Theorem mapping_outside_nominal_range (Y D : Q) :
  (Y <= - (1) -> mapYToFrequency Y = None) /\
  (D <= - (129) -> mapDiffToFrequency D = None) /\
  (256 <= Y -> Y <= 1000000000 ->
   exists f, mapYToFrequency Y = Some f /\ (2303 <= f)%Z) /\
  (128 <= D -> D <= 1000000000 ->
   exists f, mapDiffToFrequency D = Some f /\ (2303 <= f)%Z).
Proof.
  split; [ | split; [ | split ] ].
  - intros H. rewrite mapYToFrequency_castArg. unfold uint32_of_double.
    pose proof (Qtrunc_le _ _ (lumaCastArg_le _ _ H)) as L.
    replace (Qtrunc (lumaCastArg (- (1)))) with (-3)%Z in L by (vm_compute; reflexivity).
    replace (0 <=? Qtrunc (lumaCastArg Y))%Z with false
      by (symmetry; apply Z.leb_gt; lia).
    reflexivity.
  - intros H. rewrite mapDiffToFrequency_castArg. unfold uint32_of_double.
    pose proof (Qtrunc_le _ _ (diffCastArg_le _ _ H)) as L.
    replace (Qtrunc (diffCastArg (- (129)))) with (-3)%Z in L by (vm_compute; reflexivity).
    replace (0 <=? Qtrunc (diffCastArg D))%Z with false
      by (symmetry; apply Z.leb_gt; lia).
    reflexivity.
  - intros H1 H2.
    destruct (uint32_of_double_between (lumaCastArg 256) (lumaCastArg 1000000000)
                (lumaCastArg Y) 803 3137254901) as (t & Et & Ht);
      [ vm_compute; reflexivity | vm_compute; reflexivity
      | now apply lumaCastArg_le | now apply lumaCastArg_le | ].
    exists (1500 + t)%Z. rewrite mapYToFrequency_castArg, Et.
    rewrite u32_small by lia. split; [ reflexivity | lia ].
  - intros H1 H2.
    destruct (uint32_of_double_between (diffCastArg 128) (diffCastArg 1000000000)
                (diffCastArg D) 803 3137255303) as (t & Et & Ht);
      [ vm_compute; reflexivity | vm_compute; reflexivity
      | now apply diffCastArg_le | now apply diffCastArg_le | ].
    exists (1500 + t)%Z. rewrite mapDiffToFrequency_castArg, Et.
    rewrite u32_small by lia. split; [ reflexivity | lia ].
Qed.

Lemma mapping_outside_nominal_range_witness :
  mapYToFrequency (- (5 # 2)) = None /\
  exists f, mapDiffToFrequency 300 = Some f /\ (2303 <= f)%Z.
Proof.
  destruct (mapping_outside_nominal_range (- (5 # 2)) 300) as (H1 & _ & _ & H4).
  split; [ apply H1 | apply H4 ]; unfold Qle; cbn; lia.
Defined.

Local Open Scope Z_scope.

(** ** Pixel decoding *)

Lemma land_31 (x : Z) : Z.land x 0x1F = x mod 32.
Proof. apply (Z.land_ones x 5). lia. Qed.

Lemma land_63 (x : Z) : Z.land x 0x3F = x mod 64.
Proof. apply (Z.land_ones x 6). lia. Qed.

Lemma u8_scaled5 (a : Z) : 0 <= a < 32 -> u8 (u8 a * 255 / 31) = a * 255 / 31.
Proof.
  intros H. unfold u8. change (2 ^ 8) with 256.
  rewrite (Z.mod_small a 256) by lia.
  apply Z.mod_small. Z.div_mod_to_equations. lia.
Qed.

Lemma u8_scaled6 (a : Z) : 0 <= a < 64 -> u8 (u8 a * 255 / 63) = a * 255 / 63.
Proof.
  intros H. unfold u8. change (2 ^ 8) with 256.
  rewrite (Z.mod_small a 256) by lia.
  apply Z.mod_small. Z.div_mod_to_equations. lia.
Qed.

Lemma unpackRGB565_channels (p : Z) :
  unpackRGB565 p
  = ((p / 2048) mod 32 * 255 / 31, (p / 32) mod 64 * 255 / 63, p mod 32 * 255 / 31).
Proof.
  unfold unpackRGB565. rewrite !land_31, land_63, !Z.shiftr_div_pow2 by lia.
  change (2 ^ 11) with 2048. change (2 ^ 5) with 32.
  rewrite !u8_scaled5, u8_scaled6; try reflexivity; apply Z.mod_pos_bound; lia.
Qed.

Lemma scaled5_injective (a b : Z) :
  0 <= a < 32 -> 0 <= b < 32 -> a * 255 / 31 = b * 255 / 31 -> a = b.
Proof. intros Ha Hb E. Z.div_mod_to_equations. lia. Qed.

Lemma scaled6_injective (a b : Z) :
  0 <= a < 64 -> 0 <= b < 64 -> a * 255 / 63 = b * 255 / 63 -> a = b.
Proof. intros Ha Hb E. Z.div_mod_to_equations. lia. Qed.

Lemma rgb565_fields (p : Z) :
  0 <= p < 65536 ->
  p = (p / 2048) mod 32 * 2048 + (p / 32) mod 64 * 32 + p mod 32.
Proof. intros H. Z.div_mod_to_equations. lia. Qed.

(** X7: the RGB565 decoding of [getCanvasPixel] is injective on 16-bit
    words: two different stored pixels never decode to the same RGB8
    triple. *)
Theorem unpackRGB565_injective (p q : Z) :
  0 <= p < 65536 -> 0 <= q < 65536 ->
  unpackRGB565 p = unpackRGB565 q -> p = q.
Proof.
  intros Hp Hq E. rewrite !unpackRGB565_channels in E.
  injection E as E1 E2 E3.
  apply scaled5_injective in E1; [ | apply Z.mod_pos_bound; lia .. ].
  apply scaled6_injective in E2; [ | apply Z.mod_pos_bound; lia .. ].
  apply scaled5_injective in E3; [ | apply Z.mod_pos_bound; lia .. ].
  rewrite (rgb565_fields p Hp), (rgb565_fields q Hq). congruence.
Qed.

Lemma unpackRGB565_injective_witness : 0x29EE = Z.lor 0x29E0 0x000E.
Proof.
  apply (unpackRGB565_injective 0x29EE (Z.lor 0x29E0 0x000E));
    [ lia | vm_compute; split; [ discriminate | reflexivity ] | reflexivity ].
Defined.

(** ** The camera frame copy *)

Lemma lor_bytes (lo hi : Z) :
  0 <= lo < 256 -> 0 <= hi < 256 ->
  Z.lor (Z.shiftl hi 8) lo = lo + 256 * hi.
Proof.
  intros Hlo Hhi.
  assert (D : Z.land (Z.shiftl hi 8) lo = 0).
  { apply Z.bits_inj'. intros n Hn. rewrite Z.land_spec, Z.bits_0.
    destruct (Z.ltb_spec n 8) as [L | L].
    - rewrite Z.shiftl_spec_low by lia. reflexivity.
    - rewrite (Z.bits_above_log2 lo n); [ apply andb_false_r | lia | ].
      destruct (Z.eq_dec lo 0) as [-> | N]; [ cbn; lia | ].
      apply Z.lt_le_trans with 8; [ | lia ].
      apply Z.log2_lt_pow2; lia. }
  pose proof (Z.add_lor_land (Z.shiftl hi 8) lo) as A. rewrite D in A.
  rewrite Z.shiftl_mul_pow2 in A by lia. rewrite Z.shiftl_mul_pow2 by lia.
  change (2 ^ 8) with 256 in *. lia.
Qed.

Lemma framePixel_word (src : Z -> Z) (k : Z) :
  u16 (Z.lor (Z.shiftl (u16 (u8 (src (k + 1)))) 8) (u8 (src k))) = wordAt src k.
Proof.
  pose proof (u8_range (src k)). pose proof (u8_range (src (k + 1))).
  unfold wordAt, u16. change (2 ^ 16) with 65536.
  rewrite (Z.mod_small (u8 (src (k + 1)))) by lia.
  rewrite lor_bytes by lia. apply Z.mod_small. lia.
Qed.

Lemma setBuffer_ok (idx v : Z) (st : state) :
  0 <= idx < 640 * 496 ->
  setBuffer idx v st
  = Some (tt, set_canvas (fun i => if i =? idx then v else canvas st i) st).
Proof.
  intros H. unfold setBuffer, bind, get, modify, imageWidth, imageHeight.
  replace ((0 <=? idx) && (idx <? 640 * 496)) with true
    by (symmetry; apply andb_true_iff; split; [ apply Z.leb_le | apply Z.ltb_lt ]; lia).
  reflexivity.
Qed.

Lemma setBuffer_outside (idx v : Z) (st : state) :
  640 * 496 <= idx -> setBuffer idx v st = None.
Proof.
  intros H. unfold setBuffer, bind, get, fail, imageWidth, imageHeight.
  replace (idx <? 640 * 496) with false by (symmetry; apply Z.ltb_ge; lia).
  now rewrite andb_false_r.
Qed.

Lemma forEach_app (l1 l2 : list Z) (body : Z -> M unit) (st : state) :
  forEach (l1 ++ l2) body st
  = match forEach l1 body st with
    | Some (_, st') => forEach l2 body st'
    | None => None
    end.
Proof.
  revert st. induction l1 as [ | v l1 IH]; intros st; [ reflexivity | ].
  cbn [app forEach]. unfold bind.
  destruct (body v st) as [[[] s1] | ]; [ apply IH | reflexivity ].
Qed.

Lemma columns_app (n m : nat) :
  forall a, columns a (n + m) = columns a n ++ columns (a + Z.of_nat n) m.
Proof.
  induction n as [ | n IH]; intros a.
  - cbn [columns app Nat.add]. now rewrite Z.add_0_r.
  - cbn [columns app Nat.add]. rewrite IH. do 3 f_equal. lia.
Qed.

Section FrameCopy.

Variable src : Z -> Z.
Variable w : Z.


Lemma copyRow_ok (y : Z) (n : nat) :
  forall (x0 : Z) (st : state),
    0 <= y < 496 -> 0 <= x0 -> x0 + Z.of_nat n <= 640 ->
    exists st',
      forEach (columns x0 n) (copyPixel src w y) st = Some (tt, st') /\
      log st' = log st /\
      forall i,
        canvas st' i
        = if (y * 640 + x0 <=? i) && (i <? y * 640 + x0 + Z.of_nat n)
          then wordAt src ((y * w + (i - y * 640)) * 2)
          else canvas st i.
Proof.
  induction n as [ | n IH]; intros x0 st Hy Hx Hn.
  - exists st. split; [ reflexivity | ]. split; [ reflexivity | ].
    intros i. destruct (Z.leb_spec (y * 640 + x0) i), (Z.ltb_spec i (y * 640 + x0 + Z.of_nat 0));
      cbn [andb]; try reflexivity; lia.
  - cbn [columns forEach]. unfold bind at 1. unfold copyPixel at 1.
    unfold imageWidth. rewrite setBuffer_ok by lia. rewrite framePixel_word.
    set (s1 := set_canvas _ st).
    destruct (IH (x0 + 1) s1) as (st' & E & L & C); [ lia | lia | lia | ].
    exists st'. split; [ exact E | ]. split; [ rewrite L; reflexivity | ].
    intros i. rewrite C. unfold s1. cbn [canvas set_canvas].
    destruct (Z.leb_spec (y * 640 + (x0 + 1)) i),
             (Z.ltb_spec i (y * 640 + (x0 + 1) + Z.of_nat n)),
             (Z.leb_spec (y * 640 + x0) i),
             (Z.ltb_spec i (y * 640 + x0 + Z.of_nat (S n))),
             (Z.eqb_spec i ((y + 0) * 640 + x0));
      cbn [andb]; try reflexivity; try lia.
    subst i. do 2 f_equal. lia.
Qed.

Lemma copyRows_ok (m : nat) :
  forall (y0 : Z) (st : state),
    0 <= w <= 640 -> 0 <= y0 -> y0 + Z.of_nat m <= 496 ->
    exists st',
      forEach (columns y0 m) (fun y => forRange w (copyPixel src w y)) st = Some (tt, st') /\
      log st' = log st /\
      forall i,
        canvas st' i
        = if (0 <=? i) && (i mod 640 <? w) && (y0 <=? i / 640)
             && (i / 640 <? y0 + Z.of_nat m)
          then wordAt src ((i / 640 * w + i mod 640) * 2)
          else canvas st i.
Proof.
  induction m as [ | m IH]; intros y0 st Hw Hy Hm.
  - exists st. split; [ reflexivity | ]. split; [ reflexivity | ].
    intros i.
    destruct (Z.leb_spec y0 (i / 640)), (Z.ltb_spec (i / 640) (y0 + Z.of_nat 0));
      rewrite ?andb_false_r; cbn [andb]; try reflexivity; lia.
  - cbn [columns forEach]. unfold bind at 1. unfold forRange at 1.
    destruct (copyRow_ok y0 (Z.to_nat w) 0 st) as (s1 & E1 & L1 & C1); [ lia | lia | lia | ].
    rewrite E1.
    destruct (IH (y0 + 1) s1) as (st' & E & L & C); [ lia | lia | lia | ].
    exists st'. split; [ exact E | ]. split; [ congruence | ].
    intros i. rewrite C, C1. rewrite Z2Nat.id by lia.
    pose proof (Z.div_mod i 640 ltac:(lia)) as D.
    pose proof (Z.mod_pos_bound i 640 ltac:(lia)) as B.
    destruct (Z.leb_spec 0 i), (Z.ltb_spec (i mod 640) w),
             (Z.leb_spec (y0 + 1) (i / 640)),
             (Z.ltb_spec (i / 640) (y0 + 1 + Z.of_nat m)),
             (Z.leb_spec y0 (i / 640)),
             (Z.ltb_spec (i / 640) (y0 + Z.of_nat (S m))),
             (Z.leb_spec (y0 * 640 + 0) i),
             (Z.ltb_spec i (y0 * 640 + 0 + w));
      cbn [andb]; try reflexivity; try lia.
    assert (Q : i / 640 = y0) by lia.
    rewrite Q. do 2 f_equal. lia.
Qed.

End FrameCopy.

Lemma copyFrameToCanvas_rows (src : Z -> Z) (w h : Z) :
  copyFrameToCanvas src w h
  = forEach (columns 0 (Z.to_nat h)) (fun y => forRange w (copyPixel src w y)).
Proof. reflexivity. Qed.

Lemma copyFrameToCanvas_ok (src : Z -> Z) (w h : Z) (st : state) :
  0 <= w <= 640 -> 0 <= h <= 496 ->
  exists st',
    copyFrameToCanvas src w h st = Some (tt, st') /\
    log st' = log st /\
    forall i, canvas st' i = frameOver src w h (canvas st) i.
Proof.
  intros Hw Hh.
  destruct (copyRows_ok src w (Z.to_nat h) 0 st) as (st' & E & L & C);
    [ lia | lia | lia | ].
  exists st'. rewrite copyFrameToCanvas_rows.
  split; [ exact E | ]. split; [ exact L | ].
  intros i. rewrite C. unfold frameOver, imageWidth. rewrite Z2Nat.id by lia.
  pose proof (Z.div_mod i 640 ltac:(lia)) as D.
  pose proof (Z.mod_pos_bound i 640 ltac:(lia)) as B.
  destruct (Z.leb_spec 0 i), (Z.ltb_spec (i mod 640) w), (Z.leb_spec 0 (i / 640)),
           (Z.ltb_spec (i / 640) (0 + h)), (Z.ltb_spec (i / 640) h);
    cbn [andb]; try reflexivity; lia.
Qed.

(** X8: after the camera frame copy of a [w] x [h] frame that fits the
    canvas, every cell of the frame area holds the source word (low byte
    first), every other cell is unchanged, and [getCanvasPixel] at a frame
    coordinate returns the decoding of the source word. *)
Theorem copied_frame_is_read_back (src : Z -> Z) (w h x y : Z) (st : state) :
  0 <= w <= 640 -> 0 <= h <= 496 -> 0 <= x < w -> 0 <= y < h ->
  exists st' st'',
    copyFrameToCanvas src w h st = Some (tt, st') /\
    (forall i, canvas st' i = frameOver src w h (canvas st) i) /\
    getCanvasPixel x y st'
    = Some (unpackRGB565 (wordAt src ((y * w + x) * 2)), st'').
Proof.
  intros Hw Hh Hx Hy.
  destruct (copyFrameToCanvas_ok src w h st Hw Hh) as (st' & E & L & C).
  exists st', (emit (EvRead x y) st'). split; [ exact E | ]. split; [ exact C | ].
  rewrite getCanvasPixel_ok by (unfold imageWidth, imageHeight; lia).
  unfold sampleRGB8. rewrite C. unfold frameOver, imageWidth.
  assert (Q : (y * 640 + x) / 640 = y) by (Z.div_mod_to_equations; lia).
  assert (R : (y * 640 + x) mod 640 = x) by (Z.div_mod_to_equations; lia).
  rewrite Q, R.
  replace ((0 <=? y * 640 + x) && (x <? w) && (y <? h)) with true; [ reflexivity | ].
  symmetry. rewrite !andb_true_iff.
  repeat split; [ apply Z.leb_le | apply Z.ltb_lt | apply Z.ltb_lt ]; lia.
Qed.

Lemma copied_frame_is_read_back_witness :
  exists st' st'',
    copyFrameToCanvas (fun k => k) 320 240 (initialState (fun _ => 0x29EE))
    = Some (tt, st') /\
    (forall i, canvas st' i = frameOver (fun k => k) 320 240 (fun _ => 0x29EE) i) /\
    getCanvasPixel 3 2 st'
    = Some (unpackRGB565 (wordAt (fun k => k) ((2 * 320 + 3) * 2)), st'').
Proof.
  apply (copied_frame_is_read_back (fun k => k) 320 240 3 2
           (initialState (fun _ => 0x29EE))); lia.
Defined.

(** X9: the frame copy has no guard on the frame height: for a frame
    taller than the canvas (and at least one pixel wide) it stores past the
    end of the canvas buffer. *)
Theorem frame_taller_than_canvas_overruns (src : Z -> Z) (w h : Z) (st : state) :
  1 <= w <= 640 -> 496 < h -> copyFrameToCanvas src w h st = None.
Proof.
  intros Hw Hh. rewrite copyFrameToCanvas_rows.
  replace (Z.to_nat h) with (496 + S (Z.to_nat (h - 497)))%nat by lia.
  rewrite columns_app, forEach_app.
  destruct (copyRows_ok src w 496 0 st) as (s1 & E1 & _ & _); [ lia | lia | lia | ].
  rewrite E1.
  cbn [columns forEach]. unfold bind at 1. unfold forRange at 1.
  replace (Z.to_nat w) with (S (Z.to_nat (w - 1))) by lia.
  cbn [columns forEach]. unfold bind at 1. unfold copyPixel at 1.
  rewrite setBuffer_outside; [ reflexivity | unfold imageWidth; lia ].
Qed.

Lemma frame_taller_than_canvas_overruns_witness :
  copyFrameToCanvas (fun k => k) 640 497 (initialState (fun _ => 0)) = None.
Proof.
  apply (frame_taller_than_canvas_overruns (fun k => k) 640 497
           (initialState (fun _ => 0))); lia.
Defined.

(** ** The whole transmission *)

Lemma tickFreq_allowed (cv : Z -> Z) (sg : segment) (x : Z) :
  allowedTone (tickFreq cv sg x).
Proof.
  destruct (tickTone_range cv sg x) as (f & E & H).
  unfold tickFreq. rewrite E. unfold allowedTone. lia.
Qed.

Lemma tones_segment_allowed (cv : Z -> Z) (sg : segment) :
  Forall allowedTone (tones (segmentEvents cv sg)).
Proof.
  rewrite tones_segmentEvents. apply Forall_forall. intros f H.
  apply in_map_iff in H. destruct H as (x & <- & _). apply tickFreq_allowed.
Qed.

Lemma tones_linePair_allowed (cv : Z -> Z) (k : Z) :
  Forall allowedTone (tones (linePairEvents cv k)).
Proof.
  unfold linePairEvents. cbn [app tones]. rewrite !tones_app.
  constructor; [ unfold allowedTone; lia | ].
  constructor; [ unfold allowedTone; lia | ].
  repeat (apply Forall_app; split); apply tones_segment_allowed.
Qed.

Lemma tones_flat_map_allowed {A} (f : A -> list event) (l : list A) :
  (forall a, Forall allowedTone (tones (f a))) ->
  Forall allowedTone (tones (flat_map f l)).
Proof.
  intros H. induction l as [ | a l IH]; [ constructor | ].
  cbn [flat_map]. rewrite tones_app. apply Forall_app. split; [ apply H | exact IH ].
Qed.

Lemma tones_image_allowed (cv : Z -> Z) :
  Forall allowedTone (tones (imageEvents cv)).
Proof.
  unfold imageEvents. rewrite tones_app. apply Forall_app. split.
  - apply tones_flat_map_allowed. intros k. apply tones_linePair_allowed.
  - cbn [tones]. constructor.
Qed.

Lemma tones_flat_map_length {A} (f : A -> list event) (n : nat) (l : list A) :
  (forall a, length (tones (f a)) = n) ->
  length (tones (flat_map f l)) = (length l * n)%nat.
Proof.
  intros H. induction l as [ | a l IH]; [ reflexivity | ].
  cbn [flat_map length]. rewrite tones_app, length_app, IH, H. lia.
Qed.

Lemma tones_image_length (cv : Z -> Z) :
  length (tones (imageEvents cv)) = (248 * 2562)%nat.
Proof.
  unfold imageEvents. rewrite tones_app. cbn [tones].
  rewrite length_app, (tones_flat_map_length _ 2562%nat).
  - rewrite columns_length. cbn [length]. lia.
  - intros k. unfold linePairEvents. cbn [app tones length].
    rewrite !tones_app, !length_app, !tones_segmentEvents, !length_map, !columns_length.
    reflexivity.
Qed.

(** X10: the header followed by the picture writes 13 + 248 * 2562 tones,
    each of them 1100, 1200, 1300 or 1900 Hz or within [1500, 2301] Hz; the
    output is the header pulses followed by the picture events, and the
    canvas is left as it was. *)
Theorem transmission_tones_allowed (fuel : nat) (st : state) :
  (640 <= fuel)%nat ->
  exists st',
    sendHeaderAndImage fuel st = Some (tt, st') /\
    log st' = log st ++ pulseEvents (headerPulses 95) ++ imageEvents (canvas st) /\
    Forall allowedTone (tones (pulseEvents (headerPulses 95) ++ imageEvents (canvas st))) /\
    length (tones (pulseEvents (headerPulses 95) ++ imageEvents (canvas st)))
    = (13 + 248 * 2562)%nat /\
    canvas st' = canvas st.
Proof.
  intros Hfuel.
  destruct (transmitCalibrationHeader_ok st) as (s1 & E1 & C1 & _ & L1).
  destruct (transmitPD120Image_HW_ok fuel s1 Hfuel) as (st' & E & C & _ & L).
  exists st'. unfold sendHeaderAndImage. rewrite (bind_some _ _ _ _ _ E1).
  split; [ exact E | ]. split; [ rewrite L, L1, C1, <- app_assoc; reflexivity | ].
  split; [ | split; [ | congruence ] ].
  - rewrite tones_app. apply Forall_app. split; [ | apply tones_image_allowed ].
    change (tones (pulseEvents (headerPulses 95)))
      with [1900; 1200; 1900; 1200; 1100; 1100; 1100; 1100; 1100; 1300; 1100; 1300; 1200].
    repeat (apply Forall_cons; [ unfold allowedTone; lia | ]). apply Forall_nil.
  - rewrite tones_app, length_app, tones_image_length. reflexivity.
Qed.

Lemma transmission_tones_allowed_witness :
  exists st',
    sendHeaderAndImage 640 (initialState (fun _ => 0x29EE)) = Some (tt, st') /\
    canvas st' = (fun _ => 0x29EE).
Proof.
  destruct (transmission_tones_allowed 640 (initialState (fun _ => 0x29EE)))
    as (st' & E & _ & _ & _ & C); [ lia | ].
  exists st'. split; [ exact E | exact C ].
Defined.

(** ** The frequency formulas on floats and the picture band *)

Local Open Scope Q_scope.








Local Open Scope Z_scope.




(** C5 (amended): for every canvas content and every segment state with
    its column and rows on the surface, the frequency that
    [pixelTimerCallback] passes to [ledcWriteTone] is an unsigned integer in
    [1500, 2301]. *)
Theorem C5_picture_tones_within_1500_2301 (st : state) :
  0 <= pixelCounter st < imageWidth -> rowsInRange (segmentOf st) ->
  exists st' f,
    pixelTimerCallback st = Some (tt, st') /\
    tones (log st') = tones (log st) ++ [f] /\
    1500 <= f <= 2301 /\ 0 <= f < 2 ^ 32.
Proof.
  intros Hx Hrows.
  destruct (pixelTimerCallback_ok st Hx Hrows) as (st' & E & P).
  destruct (tickTone_range (canvas st) (segmentOf st) (pixelCounter st)) as (f & Ef & Hf).
  exists st', f. split; [ exact E | ].
  assert (F : tickFreq (canvas st) (segmentOf st) (pixelCounter st) = f)
    by (unfold tickFreq; now rewrite Ef).
  split; [ | lia ].
  unfold tickPost in P. destruct P as (_ & _ & _ & _ & _ & _ & _ & P).
  destruct (imageWidth <=? pixelCounter st + 1); destruct P as (_ & _ & L);
    rewrite L, !tones_app, tones_tickEvents, F; cbn [tones];
    rewrite ?app_nil_r; reflexivity.
Qed.

Lemma C5_picture_tones_witness :
  exists st' f,
    pixelTimerCallback (armSegment (RedDifference 0 1) (initialState (fun _ => 0xF800)))
    = Some (tt, st') /\
    tones (log st') = [f] /\ 1500 <= f <= 2301 /\ 0 <= f < 2 ^ 32.
Proof.
  apply (C5_picture_tones_within_1500_2301
           (armSegment (RedDifference 0 1) (initialState (fun _ => 0xF800)))).
  - cbn. unfold imageWidth. lia.
  - cbn. unfold imageHeight. lia.
Defined.

(** C5 (as stated) fails: over a saturated red canvas the red-difference
    callback writes 2301 Hz, above 2300. *)
Lemma C5_red_pair_tone_above_2300 :
  exists st' f,
    pixelTimerCallback (armSegment (RedDifference 0 1) (initialState (fun _ => 0xF800)))
    = Some (tt, st') /\
    tones (log st') = [f] /\ ~ (1500 <= f <= 2300).
Proof.
  destruct saturated_surface_tone_2301 as (_ & _ & st' & E & L).
  exists st', 2301. split; [ exact E | ]. split; [ rewrite L; reflexivity | lia ].
Qed.
